(** * The chat hub's registry (events.service.ts) and its two message handlers
      (events.gateway.ts), embedded as pure functions over finite maps.

    The four JavaScript [Map]s of [EventsService] become [gmap]s keyed by
    strings.  Every array stored in a map is owned by exactly one entry
    (fresh literals, [filter] results, or arrays pushed to and stored back
    under the same key), so in-place mutation is rendered as replacing the
    entry.  The iteration order of a [Map] is only visible through the
    [getAll...] enumerations; these are treated in the second part, over
    Maps that keep their order. *)

From stdpp Require Import gmap strings list fin_maps.

(** ** Data model *)

Record User := mkUser {
  clientId : string;
  username : string;
}.

Record ChatGroup := mkChatGroup {
  id : string;
  name : string;
  createdBy : string;
  members : list string;
}.

Record EventsService := mkEventsService {
  users : gmap string string;
  userObjects : gmap string User;
  groups : gmap string ChatGroup;
  clientGroups : gmap string (list string);
}.

#[global] Instance User_eq_dec : EqDecision User.
Proof. solve_decision. Defined.

#[global] Instance ChatGroup_eq_dec : EqDecision ChatGroup.
Proof. solve_decision. Defined.

#[global] Instance EventsService_eq_dec : EqDecision EventsService.
Proof. solve_decision. Defined.

(** The registry of a freshly constructed service: four empty maps. *)
Definition newService : EventsService :=
  mkEventsService ∅ ∅ ∅ ∅.

(** A method either returns a value or throws [new Error(message)]. *)
Inductive Completion (A : Type) : Type :=
  | Return (a : A)
  | Throw (message : string).
Arguments Return {A} a.
Arguments Throw {A} message.

(** [group.members = ms]: assignment to the [members] field. *)
Definition setMembers (ms : list string) (group : ChatGroup) : ChatGroup :=
  mkChatGroup (id group) (name group) (createdBy group) ms.

(** [xs.filter(x => x !== y)] *)
Definition without (y : string) (xs : list string) : list string :=
  filter (λ x, x ≠ y) xs.

(** [this.clientGroups.get(clientId) || []] (an array is always truthy). *)
Definition groupIdsOf (s : EventsService) (clientId : string) : list string :=
  default [] (clientGroups s !! clientId).

(** ** EventsService *)

Definition addUser (clientId username : string) (s : EventsService)
  : EventsService :=
  mkEventsService
    (<[clientId := username]> (users s))
    (<[clientId := mkUser clientId username]> (userObjects s))
    (groups s)
    (<[clientId := []]> (clientGroups s)).

(** [group.members = group.members.filter(id => id !== clientId)] *)
Definition purge (clientId : string) (group : ChatGroup) : ChatGroup :=
  setMembers (without clientId (members group)) group.

(** The body of the [forEach] callback in [removeUser]. *)
Definition dropMember (clientId : string) (gs : gmap string ChatGroup)
    (groupId : string) : gmap string ChatGroup :=
  match gs !! groupId with
  | Some group => <[groupId := purge clientId group]> gs
  | None => gs
  end.

Definition removeUser (clientId : string) (s : EventsService) : EventsService :=
  let userGroups := groupIdsOf s clientId in
  mkEventsService
    (delete clientId (users s))
    (delete clientId (userObjects s))
    (foldl (dropMember clientId) (groups s) userGroups)
    (delete clientId (clientGroups s)).

Definition getUser (clientId : string) (s : EventsService) : option string :=
  users s !! clientId.

Definition getUserObject (clientId : string) (s : EventsService) : option User :=
  userObjects s !! clientId.

Definition createGroup (groupId groupName creatorClientId : string)
    (s : EventsService) : Completion (ChatGroup * EventsService) :=
  match groups s !! groupId with
  | Some _ => Throw ("Group with ID " +:+ groupId +:+ " already exists")
  | None =>
      let group := mkChatGroup groupId groupName creatorClientId [creatorClientId] in
      let creatorGroups := groupIdsOf s creatorClientId in
      Return (group,
              mkEventsService
                (users s)
                (userObjects s)
                (<[groupId := group]> (groups s))
                (<[creatorClientId := creatorGroups ++ [groupId]]> (clientGroups s)))
  end.

Definition joinGroup (groupId clientId : string) (s : EventsService)
  : Completion (ChatGroup * EventsService) :=
  match groups s !! groupId with
  | None => Throw ("Group with ID " +:+ groupId +:+ " not found")
  | Some group =>
      if decide (clientId ∈ members group) then Return (group, s)
      else
        let group' := setMembers (members group ++ [clientId]) group in
        let userGroups := groupIdsOf s clientId in
        Return (group',
                mkEventsService
                  (users s)
                  (userObjects s)
                  (<[groupId := group']> (groups s))
                  (<[clientId := userGroups ++ [groupId]]> (clientGroups s)))
  end.

Definition leaveGroup (groupId clientId : string) (s : EventsService)
  : EventsService :=
  match groups s !! groupId with
  | None => s
  | Some group =>
      let group' := purge clientId group in
      let stored := <[groupId := group']> (groups s) in
      let kept :=
        if decide (length (members group') = 0) then delete groupId stored
        else stored in
      let userGroups := groupIdsOf s clientId in
      mkEventsService
        (users s)
        (userObjects s)
        kept
        (<[clientId := without groupId userGroups]> (clientGroups s))
  end.

Definition getGroup (groupId : string) (s : EventsService) : option ChatGroup :=
  groups s !! groupId.

(** [xs.map(f).filter(v => v !== undefined)] is [omap f xs]. *)
Definition getGroupMembers (groupId : string) (s : EventsService) : list User :=
  match groups s !! groupId with
  | None => []
  | Some group => omap (λ clientId, userObjects s !! clientId) (members group)
  end.

Definition getUserGroups (clientId : string) (s : EventsService)
  : list ChatGroup :=
  omap (λ groupId, groups s !! groupId) (groupIdsOf s clientId).

(** ** Sequences of registry operations *)

Inductive Op : Type :=
  | AddUser (clientId username : string)
  | RemoveUser (clientId : string)
  | CreateGroup (groupId groupName creatorClientId : string)
  | JoinGroup (groupId clientId : string)
  | LeaveGroup (groupId clientId : string).

(** The registry after a call; a call that throws has mutated nothing. *)
Definition after {A : Type} (s : EventsService)
    (c : Completion (A * EventsService)) : EventsService :=
  match c with
  | Return (_, s') => s'
  | Throw _ => s
  end.

Definition step (s : EventsService) (op : Op) : EventsService :=
  match op with
  | AddUser c n => addUser c n s
  | RemoveUser c => removeUser c s
  | CreateGroup g n c => after s (createGroup g n c s)
  | JoinGroup g c => after s (joinGroup g c s)
  | LeaveGroup g c => leaveGroup g c s
  end.

Definition run (ops : list Op) (s : EventsService) : EventsService :=
  foldl step s ops.

Definition reachable (s : EventsService) : Prop :=
  ∃ ops, s = run ops newService.

(** ** EventsGateway: the two message handlers

    A handler may call [this.server.to(room).emit(event, data)] and then
    returns a [WsResponse], which the framework sends back to the calling
    socket only.  Both are recorded, in order, as deliveries.  The room
    [group:<groupId>] is the scope [Room groupId]; the room named by a socket
    id holds that socket alone and is the scope [Direct connId].
    [new Date().toISOString()] is the parameter [timestamp]. *)

Inductive Payload : Type :=
  | ErrorData (message : string)
  | GroupMessageData (groupId message : string) (sender : User)
      (timestamp : string)
  | PrivateMessageData (message : string) (sender recipient : User)
      (timestamp : string).

Inductive Scope : Type :=
  | Broadcast
  | Room (groupId : string)
  | Direct (connId : string)
  | RequesterOnly.

Record Delivery := mkDelivery {
  scope : Scope;
  event : string;
  data : Payload;
}.

#[global] Instance Payload_eq_dec : EqDecision Payload.
Proof. solve_decision. Defined.

#[global] Instance Scope_eq_dec : EqDecision Scope.
Proof. solve_decision. Defined.

#[global] Instance Delivery_eq_dec : EqDecision Delivery.
Proof. solve_decision. Defined.

Definition isRoom (d : Delivery) : bool :=
  match scope d with Room _ => true | _ => false end.

Definition isDirect (d : Delivery) : bool :=
  match scope d with Direct _ => true | _ => false end.

(** [return { event: 'error', data: { message } }] *)
Definition errorResponse (message : string) : Delivery :=
  mkDelivery RequesterOnly "error" (ErrorData message).

Module EventsGateway.

Definition handleGroupMessage (groupId message client_id timestamp : string)
    (s : EventsService) : list Delivery * EventsService :=
  match getUserObject client_id s with
  | None => ([errorResponse "User not found"], s)
  | Some user =>
      match getGroup groupId s with
      | None => ([errorResponse "Group not found"], s)
      | Some group =>
          if decide (client_id ∈ members group) then
            let messageData :=
              GroupMessageData groupId message user timestamp in
            ([mkDelivery (Room groupId) "groupMessage" messageData;
              mkDelivery RequesterOnly "messageSent" messageData], s)
          else ([errorResponse "You are not a member of this group"], s)
      end
  end.

Definition handlePrivateMessage
    (recipientClientId message client_id timestamp : string)
    (s : EventsService) : list Delivery * EventsService :=
  let sender := getUserObject client_id s in
  let recipient := getUserObject recipientClientId s in
  match sender with
  | None => ([errorResponse "Sender not found"], s)
  | Some sender =>
      match recipient with
      | None => ([errorResponse "Recipient not found"], s)
      | Some recipient =>
          let messageData :=
            PrivateMessageData message sender recipient timestamp in
          ([mkDelivery (Direct recipientClientId) "privateMessage" messageData;
            mkDelivery RequesterOnly "privateMessageSent" messageData], s)
      end
  end.

End EventsGateway.

(** ** The two properties the registry is meant to keep *)

(** The specified invariant, read on the stored groups: a connection is in
    a group's member array exactly when the group's id is in the
    connection's [clientGroups] array. *)
Definition bidirectional (s : EventsService) : Prop :=
  ∀ (connId groupId : string) (group : ChatGroup),
    groups s !! groupId = Some group →
    (connId ∈ members group ↔ groupId ∈ groupIdsOf s connId).

(** The half of it that goes from the index to the groups. *)
Definition indexSound (s : EventsService) : Prop :=
  ∀ (connId groupId : string),
    groupId ∈ groupIdsOf s connId →
    ∃ group, groups s !! groupId = Some group ∧ connId ∈ members group.

(** The other half. *)
Definition indexComplete (s : EventsService) : Prop :=
  ∀ (connId groupId : string) (group : ChatGroup),
    groups s !! groupId = Some group →
    connId ∈ members group → groupId ∈ groupIdsOf s connId.

Definition noEmptyGroup (s : EventsService) : Prop :=
  ∀ (groupId : string) (group : ChatGroup),
    groups s !! groupId = Some group → members group ≠ [].

(** A connection that no stored group lists as a member. *)
Definition memberOfNone (connId : string) (s : EventsService) : Prop :=
  ∀ (groupId : string) (group : ChatGroup),
    groups s !! groupId = Some group → connId ∉ members group.


(** An [addUser] is a first join when its connection is in no stored group;
    the other operations are not restricted. *)
Definition firstJoin (s : EventsService) (op : Op) : Prop :=
  match op with
  | AddUser c _ => memberOfNone c s
  | _ => True
  end.

Fixpoint firstJoins (s : EventsService) (ops : list Op) : Prop :=
  match ops with
  | [] => True
  | op :: ops' => firstJoin s op ∧ firstJoins (step s op) ops'
  end.

(** ** Two small registries used as concrete inputs *)

(** alice has joined as c1 and created the group g1. *)
Definition aliceAlone : EventsService :=
  run [AddUser "c1" "alice"; CreateGroup "g1" "Team" "c1"] newService.

(** The registry in which c1 has created g1 and nothing else happened. *)
Definition onlyGroup : EventsService :=
  run [CreateGroup "g1" "Team" "c1"] newService.

(** ** The Maps with their iteration order

    [Array.from(map.values())] lists the values in the order in which their
    keys were first inserted, so for the enumerations a [Map] is an
    association list: [set] replaces the value of a present key where it
    stands and appends a new key at the end, [delete] takes the entry
    out. *)

Module JsMap.

Fixpoint get {V : Type} (k : string) (m : list (string * V)) : option V :=
  match m with
  | [] => None
  | (k', v) :: m' => if decide (k' = k) then Some v else get k m'
  end.

Fixpoint set {V : Type} (k : string) (v : V) (m : list (string * V))
  : list (string * V) :=
  match m with
  | [] => [(k, v)]
  | (k', v') :: m' =>
      if decide (k' = k) then (k, v) :: m' else (k', v') :: set k v m'
  end.

Definition delete {V : Type} (k : string) (m : list (string * V))
  : list (string * V) :=
  filter (λ entry, entry.1 ≠ k) m.

Definition keys {V : Type} (m : list (string * V)) : list string := m.*1.

Definition values {V : Type} (m : list (string * V)) : list V := m.*2.

(** The same map without its order. *)
Definition content {V : Type} (m : list (string * V)) : gmap string V :=
  list_to_map m.

End JsMap.

(** ** EventsService over ordered Maps, with the three enumerations *)

Module Ordered.

Record Service := mkService {
  users : list (string * string);
  userObjects : list (string * User);
  groups : list (string * ChatGroup);
  clientGroups : list (string * list string);
}.

Definition newService : Service := mkService [] [] [] [].

(** [this.clientGroups.get(clientId) || []] *)
Definition groupIdsOf (s : Service) (clientId : string) : list string :=
  default [] (JsMap.get clientId (clientGroups s)).

Definition addUser (clientId username : string) (s : Service) : Service :=
  mkService
    (JsMap.set clientId username (users s))
    (JsMap.set clientId (mkUser clientId username) (userObjects s))
    (groups s)
    (JsMap.set clientId [] (clientGroups s)).

(** The [forEach] callback of [removeUser]; the group object is mutated
    where it is stored, so it keeps its place in the Map. *)
Definition dropMember (clientId : string) (gs : list (string * ChatGroup))
    (groupId : string) : list (string * ChatGroup) :=
  match JsMap.get groupId gs with
  | Some group => JsMap.set groupId (purge clientId group) gs
  | None => gs
  end.

Definition removeUser (clientId : string) (s : Service) : Service :=
  let userGroups := groupIdsOf s clientId in
  mkService
    (JsMap.delete clientId (users s))
    (JsMap.delete clientId (userObjects s))
    (foldl (dropMember clientId) (groups s) userGroups)
    (JsMap.delete clientId (clientGroups s)).

Definition getUser (clientId : string) (s : Service) : option string :=
  JsMap.get clientId (users s).

Definition getUserObject (clientId : string) (s : Service) : option User :=
  JsMap.get clientId (userObjects s).

Definition getAllUsers (s : Service) : list string :=
  JsMap.values (users s).

Definition getAllUserObjects (s : Service) : list User :=
  JsMap.values (userObjects s).

Definition createGroup (groupId groupName creatorClientId : string)
    (s : Service) : Completion (ChatGroup * Service) :=
  match JsMap.get groupId (groups s) with
  | Some _ => Throw ("Group with ID " +:+ groupId +:+ " already exists")
  | None =>
      let group :=
        mkChatGroup groupId groupName creatorClientId [creatorClientId] in
      let creatorGroups := groupIdsOf s creatorClientId in
      Return (group,
              mkService
                (users s)
                (userObjects s)
                (JsMap.set groupId group (groups s))
                (JsMap.set creatorClientId (creatorGroups ++ [groupId])
                   (clientGroups s)))
  end.

Definition joinGroup (groupId clientId : string) (s : Service)
  : Completion (ChatGroup * Service) :=
  match JsMap.get groupId (groups s) with
  | None => Throw ("Group with ID " +:+ groupId +:+ " not found")
  | Some group =>
      if decide (clientId ∈ members group) then Return (group, s)
      else
        let group' := setMembers (members group ++ [clientId]) group in
        let userGroups := groupIdsOf s clientId in
        Return (group',
                mkService
                  (users s)
                  (userObjects s)
                  (JsMap.set groupId group' (groups s))
                  (JsMap.set clientId (userGroups ++ [groupId])
                     (clientGroups s)))
  end.

Definition leaveGroup (groupId clientId : string) (s : Service) : Service :=
  match JsMap.get groupId (groups s) with
  | None => s
  | Some group =>
      let group' := purge clientId group in
      let stored := JsMap.set groupId group' (groups s) in
      let kept :=
        if decide (length (members group') = 0)
        then JsMap.delete groupId stored
        else stored in
      let userGroups := groupIdsOf s clientId in
      mkService
        (users s)
        (userObjects s)
        kept
        (JsMap.set clientId (without groupId userGroups) (clientGroups s))
  end.

Definition getGroup (groupId : string) (s : Service) : option ChatGroup :=
  JsMap.get groupId (groups s).

Definition getAllGroups (s : Service) : list ChatGroup :=
  JsMap.values (groups s).

Definition getGroupMembers (groupId : string) (s : Service) : list User :=
  match JsMap.get groupId (groups s) with
  | None => []
  | Some group =>
      omap (λ clientId, JsMap.get clientId (userObjects s)) (members group)
  end.

Definition getUserGroups (clientId : string) (s : Service) : list ChatGroup :=
  omap (λ groupId, JsMap.get groupId (groups s)) (groupIdsOf s clientId).

(** The registry after a call; a call that throws has mutated nothing. *)
Definition after {A : Type} (s : Service) (c : Completion (A * Service))
  : Service :=
  match c with
  | Return (_, s') => s'
  | Throw _ => s
  end.

Definition step (s : Service) (op : Op) : Service :=
  match op with
  | AddUser c n => addUser c n s
  | RemoveUser c => removeUser c s
  | CreateGroup g n c => after s (createGroup g n c s)
  | JoinGroup g c => after s (joinGroup g c s)
  | LeaveGroup g c => leaveGroup g c s
  end.

Definition run (ops : list Op) (s : Service) : Service := foldl step s ops.

End Ordered.

(** Forgetting the order gives the registry of the first part. *)
Definition unordered (s : Ordered.Service) : EventsService :=
  mkEventsService
    (JsMap.content (Ordered.users s))
    (JsMap.content (Ordered.userObjects s))
    (JsMap.content (Ordered.groups s))
    (JsMap.content (Ordered.clientGroups s)).

Definition unorderedResult
    (c : Completion (ChatGroup * Ordered.Service))
  : Completion (ChatGroup * EventsService) :=
  match c with
  | Return (group, s) => Return (group, unordered s)
  | Throw message => Throw message
  end.

(** ** EventsGateway: the other handlers

    What a handler does to the outside is recorded in order: an emit through
    the server, the calling socket entering or leaving the room
    [group:<groupId>], and last the returned [WsResponse], an emit of scope
    [RequesterOnly].  Calls to the logger are left out. *)

Inductive Body : Type :=
  | Text (text : string)
  | Names (names : list string)
  | GroupBody (group : ChatGroup)
  | MemberJoined (group : ChatGroup) (user : option User)
  | JoinedGroup (group : ChatGroup) (groupMembers : list User)
  | MemberLeft (groupId : string) (user : option User)
  | GroupRef (groupId : string)
  | GroupList (groupList : list ChatGroup)
  | UserList (userList : list User)
  | Failure (message : string).

Inductive Effect : Type :=
  | Emit (scope : Scope) (event : string) (body : Body)
  | SocketJoin (groupId : string)
  | SocketLeave (groupId : string).

#[global] Instance Body_eq_dec : EqDecision Body.
Proof. solve_decision. Defined.

#[global] Instance Effect_eq_dec : EqDecision Effect.
Proof. solve_decision. Defined.

Definition toRequester (e : Effect) : bool :=
  match e with
  | Emit RequesterOnly _ _ => true
  | _ => false
  end.

Definition isSocketJoin (e : Effect) : bool :=
  match e with SocketJoin _ => true | _ => false end.

Module Gateway.

Definition handleDisconnect (client_id : string) (s : Ordered.Service)
  : list Effect * Ordered.Service :=
  let username := Ordered.getUser client_id s in
  let s1 := Ordered.removeUser client_id s in
  let left :=
    match username with
    | Some n =>
        if decide (n = "") then [] else [Emit Broadcast "userLeft" (Text n)]
    | None => []
    end in
  (Emit Broadcast "users" (Names (Ordered.getAllUsers s1)) :: left, s1).

Definition handleBroadcast (data : string) (s : Ordered.Service)
  : list Effect * Ordered.Service :=
  ([Emit Broadcast "broadcast" (Text data)], s).

Definition handleJoin (username client_id : string) (s : Ordered.Service)
  : list Effect * Ordered.Service :=
  let s1 := Ordered.addUser client_id username s in
  ([Emit Broadcast "userJoined" (Text username);
    Emit Broadcast "users" (Names (Ordered.getAllUsers s1))], s1).

Definition handleCreateGroup (groupId name client_id : string)
    (s : Ordered.Service) : list Effect * Ordered.Service :=
  match Ordered.createGroup groupId name client_id s with
  | Return (group, s1) =>
      ([Emit Broadcast "groupCreated" (GroupBody group);
        Emit RequesterOnly "groupCreated" (GroupBody group)], s1)
  | Throw message => ([Emit RequesterOnly "error" (Failure message)], s)
  end.

Definition handleJoinGroup (groupId client_id : string) (s : Ordered.Service)
  : list Effect * Ordered.Service :=
  match Ordered.joinGroup groupId client_id s with
  | Return (group, s1) =>
      let user := Ordered.getUserObject client_id s1 in
      let groupMembers := Ordered.getGroupMembers groupId s1 in
      ([SocketJoin groupId;
        Emit (Room groupId) "userJoinedGroup" (MemberJoined group user);
        Emit RequesterOnly "joinedGroup" (JoinedGroup group groupMembers)], s1)
  | Throw message => ([Emit RequesterOnly "error" (Failure message)], s)
  end.

Definition handleLeaveGroup (groupId client_id : string) (s : Ordered.Service)
  : list Effect * Ordered.Service :=
  let user := Ordered.getUserObject client_id s in
  let s1 := Ordered.leaveGroup groupId client_id s in
  ([SocketLeave groupId;
    Emit (Room groupId) "userLeftGroup" (MemberLeft groupId user);
    Emit RequesterOnly "leftGroup" (GroupRef groupId)], s1).

Definition handleGetGroups (s : Ordered.Service)
  : list Effect * Ordered.Service :=
  ([Emit RequesterOnly "allGroups" (GroupList (Ordered.getAllGroups s))], s).

Definition handleGetUserGroups (client_id : string) (s : Ordered.Service)
  : list Effect * Ordered.Service :=
  ([Emit RequesterOnly "userGroups"
      (GroupList (Ordered.getUserGroups client_id s))], s).

Definition handleGetUsers (s : Ordered.Service)
  : list Effect * Ordered.Service :=
  ([Emit RequesterOnly "allUsers" (UserList (Ordered.getAllUserObjects s))], s).

(** What a client can make the gateway do. *)
Inductive Request : Type :=
  | Disconnect
  | Broadcasting (data : string)
  | Join (username : string)
  | CreatingGroup (groupId name : string)
  | JoiningGroup (groupId : string)
  | LeavingGroup (groupId : string)
  | GetGroups
  | GetUserGroups
  | GetUsers.

Definition handle (client_id : string) (r : Request) (s : Ordered.Service)
  : list Effect * Ordered.Service :=
  match r with
  | Disconnect => handleDisconnect client_id s
  | Broadcasting data => handleBroadcast data s
  | Join username => handleJoin username client_id s
  | CreatingGroup groupId name => handleCreateGroup groupId name client_id s
  | JoiningGroup groupId => handleJoinGroup groupId client_id s
  | LeavingGroup groupId => handleLeaveGroup groupId client_id s
  | GetGroups => handleGetGroups s
  | GetUserGroups => handleGetUserGroups client_id s
  | GetUsers => handleGetUsers s
  end.

(** The registry after a sequence of requests, each with its sender. *)
Definition serve (requests : list (string * Request)) (s : Ordered.Service)
  : Ordered.Service :=
  foldl (λ s1 request, (handle request.1 request.2 s1).2) s requests.

End Gateway.

(** ** AdvancedGateway *)

Module AdvancedGateway.



End AdvancedGateway.

(** ** Properties of the listings *)

(** Every stored object sits under the key it carries, and [users] and
    [userObjects] hold the same names. *)
Definition keyed (s : EventsService) : Prop :=
  (∀ g group, groups s !! g = Some group → id group = g)
  ∧ (∀ c, userObjects s !! c = (λ n, mkUser c n) <$> users s !! c).

(** No member array and no index array lists an entry twice. *)
Definition noRepeats (s : EventsService) : Prop :=
  (∀ g group, groups s !! g = Some group → NoDup (members group))
  ∧ (∀ c, NoDup (groupIdsOf s c)).

(** The two identity Maps list the same connections in the same order. *)
Definition lockstep (s : Ordered.Service) : Prop :=
  Ordered.userObjects s
  = (λ entry, (entry.1, mkUser entry.1 entry.2)) <$> Ordered.users s.

Definition distinctKeys (s : Ordered.Service) : Prop :=
  NoDup (JsMap.keys (Ordered.users s))
  ∧ NoDup (JsMap.keys (Ordered.groups s)).

(** * Properties *)

(** ** Elementary facts about the helpers *)

Section Helpers.

Implicit Types (xs : list string) (x y : string) (group : ChatGroup).

Lemma elem_of_without x y xs : x ∈ without y xs ↔ x ∈ xs ∧ x ≠ y.
Proof. unfold without. rewrite list_elem_of_filter. tauto. Qed.

Lemma without_absent y xs : y ∉ xs → without y xs = xs.
Proof.
  intros Hy. induction xs as [|x xs IH]; [done|].
  apply not_elem_of_cons in Hy as [Hne Hxs].
  unfold without. rewrite filter_cons_True by congruence.
  f_equal. by apply IH.
Qed.

Lemma without_without y xs : without y (without y xs) = without y xs.
Proof. apply without_absent. rewrite elem_of_without. tauto. Qed.

Lemma setMembers_same group : setMembers (members group) group = group.
Proof. by destruct group. Qed.



End Helpers.

(** ** createGroup and getGroup *)

(** C5. [createGroup] throws exactly when the id is already stored; otherwise
    it returns the group [{id, name, createdBy, members: [creator]}], and
    [getGroup] on the resulting registry returns that very group. *)
Theorem createGroup_round_trip (groupId groupName creator : string)
    (s : EventsService) :
  match groups s !! groupId with
  | Some _ =>
      createGroup groupId groupName creator s
      = Throw ("Group with ID " +:+ groupId +:+ " already exists")
  | None =>
      let group := mkChatGroup groupId groupName creator [creator] in
      ∃ s', createGroup groupId groupName creator s = Return (group, s')
            ∧ getGroup groupId s' = Some group
            ∧ groupIdsOf s' creator = groupIdsOf s creator ++ [groupId]
  end.
Proof.
  unfold createGroup. destruct (groups s !! groupId) as [old|] eqn:Hg; [done|].
  eexists. split; [reflexivity|]. split.
  - unfold getGroup. cbn. apply lookup_insert_eq.
  - unfold groupIdsOf at 1. cbn. by rewrite lookup_insert_eq.
Qed.

(** ** joinGroup *)

(** C4. [joinGroup] throws exactly when the group is not stored; for a
    connection that is already a member it returns the stored group and the
    registry as it was; and a second call returns what the first returned and
    leaves the registry as the first call left it. *)
Theorem joinGroup_idempotent (groupId clientId : string) (s : EventsService) :
  match groups s !! groupId with
  | None =>
      joinGroup groupId clientId s
      = Throw ("Group with ID " +:+ groupId +:+ " not found")
  | Some group =>
      ∃ group1 s1,
        joinGroup groupId clientId s = Return (group1, s1)
        ∧ (clientId ∈ members group → group1 = group ∧ s1 = s)
        ∧ joinGroup groupId clientId s1 = Return (group1, s1)
  end
  ∧ step (step s (JoinGroup groupId clientId)) (JoinGroup groupId clientId)
    = step s (JoinGroup groupId clientId).
Proof.
  assert (Hfirst :
    match groups s !! groupId with
    | None =>
        joinGroup groupId clientId s
        = Throw ("Group with ID " +:+ groupId +:+ " not found")
    | Some group =>
        ∃ group1 s1,
          joinGroup groupId clientId s = Return (group1, s1)
          ∧ (clientId ∈ members group → group1 = group ∧ s1 = s)
          ∧ joinGroup groupId clientId s1 = Return (group1, s1)
    end).
  { destruct (groups s !! groupId) as [group|] eqn:Hg;
      [|by unfold joinGroup; rewrite Hg].
    unfold joinGroup at 1. rewrite Hg.
    destruct (decide (clientId ∈ members group)) as [Hin|Hout].
    - exists group, s. split; [done|]. split; [done|].
      unfold joinGroup. rewrite Hg. by rewrite decide_True.
    - eexists _, _. split; [reflexivity|]. split; [done|].
      unfold joinGroup. cbn. rewrite lookup_insert_eq. cbn.
      rewrite decide_True; [done|]. apply elem_of_app. right. by left. }
  split; [exact Hfirst|].
  cbn. destruct (groups s !! groupId) as [group|] eqn:Hg.
  - destruct Hfirst as (group1 & s1 & H1 & _ & H2). rewrite H1. cbn. by rewrite H2.
  - rewrite Hfirst. cbn. by rewrite Hfirst.
Qed.

(** ** Acting without an Identity *)

Section Unregistered.

Variables (s : EventsService) (connId : string).
Hypothesis unregistered : userObjects s !! connId = None.

(** A member without a stored [User] contributes nothing to the
    [map]/[filter] pipeline of [getGroupMembers]. *)
Lemma omap_skips_unregistered (ms : list string) :
  omap (λ c, userObjects s !! c) ms
  = omap (λ c, userObjects s !! c) (without connId ms).
Proof using unregistered.
  induction ms as [|m ms IH]; [done|].
  destruct (decide (m = connId)) as [->|Hne].
  - unfold without. rewrite filter_cons_False by tauto.
    cbn [omap list_omap]. rewrite unregistered. exact IH.
  - unfold without. rewrite filter_cons_True by done.
    cbn [omap list_omap]. unfold without in IH. by rewrite IH.
Qed.

End Unregistered.

(** C10. Neither [createGroup] nor [joinGroup] looks at [userObjects]: a
    connection without an Identity creates a group and is its only member,
    joins a stored group and is a member afterwards, stays without an
    Identity, and [getGroupMembers] lists the group as if the connection
    were not in it. *)
Theorem unregistered_creates_and_joins (groupId groupName connId : string)
    (s : EventsService) :
  userObjects s !! connId = None →
  match groups s !! groupId with
  | None =>
      ∃ s1, createGroup groupId groupName connId s
            = Return (mkChatGroup groupId groupName connId [connId], s1)
            ∧ getGroup groupId s1
              = Some (mkChatGroup groupId groupName connId [connId])
            ∧ getUserObject connId s1 = None
            ∧ getGroupMembers groupId s1 = []
  | Some group =>
      ∃ group1 s1, joinGroup groupId connId s = Return (group1, s1)
            ∧ getGroup groupId s1 = Some group1
            ∧ connId ∈ members group1
            ∧ getUserObject connId s1 = None
            ∧ getGroupMembers groupId s1
              = omap (λ c, userObjects s !! c) (without connId (members group1))
  end.
Proof.
  intros Hun. destruct (groups s !! groupId) as [group|] eqn:Hg.
  - unfold joinGroup. rewrite Hg.
    destruct (decide (connId ∈ members group)) as [Hin|Hout].
    + exists group, s. repeat split; try done.
      unfold getGroupMembers. rewrite Hg.
      by apply omap_skips_unregistered.
    + eexists _, _. split; [reflexivity|].
      unfold getGroup, getGroupMembers, getUserObject. cbn.
      rewrite lookup_insert_eq. repeat split; try done.
      * apply elem_of_app. right. by left.
      * by apply omap_skips_unregistered.
  - unfold createGroup. rewrite Hg. eexists. split; [reflexivity|].
    unfold getGroup, getGroupMembers, getUserObject. cbn.
    rewrite lookup_insert_eq. repeat split; try done.
    cbn. by rewrite Hun.
Qed.

Lemma unregistered_creates_and_joins_witness :
  ∃ group1 s1, joinGroup "g1" "c2" aliceAlone = Return (group1, s1)
    ∧ getGroup "g1" s1 = Some group1
    ∧ "c2" ∈ members group1
    ∧ getUserObject "c2" s1 = None
    ∧ getGroupMembers "g1" s1
      = omap (λ c, userObjects aliceAlone !! c) (without "c2" (members group1)).
Proof.
  exact (unregistered_creates_and_joins "g1" "Team" "c2" aliceAlone eq_refl).
Defined.

(** ** leaveGroup *)

Section LeaveGroup.

Variables (groupId clientId : string) (s : EventsService).

Lemma leaveGroup_missing :
  groups s !! groupId = None → leaveGroup groupId clientId s = s.
Proof. intros Hg. unfold leaveGroup. by rewrite Hg. Qed.

Lemma leaveGroup_groups (group : ChatGroup) :
  groups s !! groupId = Some group →
  groups (leaveGroup groupId clientId s)
  = if decide (without clientId (members group) = [])
    then delete groupId (groups s)
    else <[groupId := setMembers (without clientId (members group)) group]>
           (groups s).
Proof.
  intros Hg. unfold leaveGroup. rewrite Hg.
  unfold purge. cbn [groups members setMembers].
  destruct (without clientId (members group)) as [|m ms] eqn:Hrest.
  - rewrite !decide_True by done. apply delete_insert_eq.
  - by rewrite !decide_False by done.
Qed.

Lemma leaveGroup_clientGroups (group : ChatGroup) :
  groups s !! groupId = Some group →
  clientGroups (leaveGroup groupId clientId s)
  = <[clientId := without groupId (groupIdsOf s clientId)]> (clientGroups s).
Proof. intros Hg. unfold leaveGroup. by rewrite Hg. Qed.

Lemma leaveGroup_groupIdsOf (connId : string) (group : ChatGroup) :
  groups s !! groupId = Some group →
  groupIdsOf (leaveGroup groupId clientId s) connId
  = if decide (connId = clientId) then without groupId (groupIdsOf s connId)
    else groupIdsOf s connId.
Proof.
  intros Hg. unfold groupIdsOf at 1.
  rewrite (leaveGroup_clientGroups group Hg).
  destruct (decide (connId = clientId)) as [->|Hne].
  - by rewrite lookup_insert_eq.
  - by rewrite lookup_insert_ne.
Qed.

Lemma leaveGroup_identities :
  users (leaveGroup groupId clientId s) = users s
  ∧ userObjects (leaveGroup groupId clientId s) = userObjects s.
Proof. unfold leaveGroup. by destruct (groups s !! groupId). Qed.

End LeaveGroup.

(** C8, as specified, fails: c2 is not a member of the stored group g1, yet
    [leaveGroup "g1" "c2"] changes the registry, because it stores an
    (empty) [clientGroups] entry for c2 where there was none. *)
Lemma leaveGroup_nonmember_changes_registry :
  groups onlyGroup !! "g1" = Some (mkChatGroup "g1" "Team" "c1" ["c1"])
  ∧ ("c2" ∉ ["c1"])
  ∧ clientGroups onlyGroup !! "c2" = None
  ∧ clientGroups (leaveGroup "g1" "c2" onlyGroup) !! "c2" = Some []
  ∧ leaveGroup "g1" "c2" onlyGroup ≠ onlyGroup.
Proof.
  repeat split.
  - intros Hin. by apply list_elem_of_singleton in Hin.
  - intros Heq. apply (f_equal (λ r, clientGroups r !! "c2")) in Heq.
    vm_compute in Heq. discriminate.
Qed.

(** The same call on a group that a disconnect has left empty (see C2)
    deletes the group, which [getGroup] shows. *)
Lemma leaveGroup_nonmember_deletes_emptied_group :
  getGroup "g1" (removeUser "c1" aliceAlone)
  = Some (mkChatGroup "g1" "Team" "c1" [])
  ∧ getGroup "g1" (leaveGroup "g1" "c2" (removeUser "c1" aliceAlone)) = None.
Proof. split; reflexivity. Qed.

(** C8, amended.  [leaveGroup] returns normally in every case.  For a group
    that is not stored the registry is returned as it is.  For a stored
    group, the connection is filtered out of the member array and the group
    is deleted if that array is then empty; the connection's [clientGroups]
    entry is written back without the group id (an absent entry is written
    as the empty array); identities are untouched.  So for a non-member of a
    non-empty group whose id is not in the connection's index, the groups
    are exactly as before and every connection's index reads as before. *)
Theorem leaveGroup_effect (groupId clientId : string) (s : EventsService) :
  match groups s !! groupId with
  | None => leaveGroup groupId clientId s = s
  | Some group =>
      let s' := leaveGroup groupId clientId s in
      let rest := without clientId (members group) in
      users s' = users s
      ∧ userObjects s' = userObjects s
      ∧ groups s'
        = (if decide (rest = []) then delete groupId (groups s)
           else <[groupId := setMembers rest group]> (groups s))
      ∧ clientGroups s'
        = <[clientId := without groupId (groupIdsOf s clientId)]> (clientGroups s)
      ∧ (clientId ∉ members group → members group ≠ [] →
         groupId ∉ groupIdsOf s clientId →
         groups s' = groups s ∧ ∀ connId, groupIdsOf s' connId = groupIdsOf s connId)
  end.
Proof.
  destruct (groups s !! groupId) as [group|] eqn:Hg;
    [|by apply leaveGroup_missing].
  cbn zeta. destruct (leaveGroup_identities groupId clientId s) as [Hu Ho].
  split; [done|]. split; [done|].
  split; [by apply leaveGroup_groups|].
  split; [by apply (leaveGroup_clientGroups _ _ _ group)|].
  intros Hout Hne Hidx. split.
  - rewrite (leaveGroup_groups groupId clientId s group Hg).
    rewrite (without_absent _ _ Hout). rewrite decide_False by done.
    rewrite setMembers_same. by apply insert_id.
  - intros connId. rewrite (leaveGroup_groupIdsOf groupId clientId s connId group Hg).
    destruct (decide (connId = clientId)) as [->|]; [|done].
    by apply without_absent.
Qed.

(** ** The message handlers *)

Section Handlers.

Import EventsGateway.

(** Neither handler calls a mutating method of the service. *)
Lemma handleGroupMessage_reads_only groupId message client_id timestamp s :
  (handleGroupMessage groupId message client_id timestamp s).2 = s.
Proof.
  unfold handleGroupMessage.
  destruct (getUserObject client_id s); [|done].
  destruct (getGroup groupId s) as [group|]; [|done].
  by destruct (decide (client_id ∈ members group)).
Qed.

Lemma handlePrivateMessage_reads_only recipientClientId message client_id
    timestamp s :
  (handlePrivateMessage recipientClientId message client_id timestamp s).2 = s.
Proof.
  unfold handlePrivateMessage.
  destruct (getUserObject client_id s); [|done].
  by destruct (getUserObject recipientClientId s).
Qed.

End Handlers.

(** C6, as specified, fails on the first message: a group message from a
    connection without an Identity is answered with "User not found", not
    with "Sender not found". *)
Lemma handleGroupMessage_sender_message :
  getUserObject "c3" newService = None
  ∧ (EventsGateway.handleGroupMessage "g1" "hi" "c3" "t0" newService).1
    = [errorResponse "User not found"]
  ∧ (EventsGateway.handleGroupMessage "g1" "hi" "c3" "t0" newService).1
    ≠ [errorResponse "Sender not found"].
Proof. repeat split. discriminate. Qed.

(** C6, amended.  The checks are made in the order sender, group,
    membership, and the first one that fails decides the outcome: exactly
    one requester-only [error] delivery, carrying "User not found", "Group
    not found" or "You are not a member of this group" respectively.  In
    each error case there is no room delivery, and in every case the
    registry is returned as it was.  When all three checks pass the room
    gets the message and the requester the confirmation. *)
Theorem handleGroupMessage_outcomes
    (groupId message client_id timestamp : string) (s : EventsService) :
  let out :=
    EventsGateway.handleGroupMessage groupId message client_id timestamp s in
  out.2 = s
  ∧ match userObjects s !! client_id with
    | None =>
        out.1 = [errorResponse "User not found"] ∧ filter isRoom out.1 = []
    | Some user =>
        match groups s !! groupId with
        | None =>
            out.1 = [errorResponse "Group not found"] ∧ filter isRoom out.1 = []
        | Some group =>
            if decide (client_id ∈ members group) then
              out.1
              = [mkDelivery (Room groupId) "groupMessage"
                   (GroupMessageData groupId message user timestamp);
                 mkDelivery RequesterOnly "messageSent"
                   (GroupMessageData groupId message user timestamp)]
            else
              out.1 = [errorResponse "You are not a member of this group"]
              ∧ filter isRoom out.1 = []
        end
    end.
Proof.
  cbn zeta. split; [apply handleGroupMessage_reads_only|].
  unfold EventsGateway.handleGroupMessage, getUserObject, getGroup.
  destruct (userObjects s !! client_id) as [user|]; [|done].
  destruct (groups s !! groupId) as [group|]; [|done].
  by destruct (decide (client_id ∈ members group)).
Qed.

(** C9.  A private message from a connection without an Identity is answered
    by exactly one requester-only [error] delivery, "Sender not found".  A
    private message to a connection without an Identity is answered by
    exactly one requester-only [error] delivery and nothing is delivered to
    any connection directly; its message is "Recipient not found" once the
    sender check, which comes first, has passed.  The registry is not
    touched. *)
Theorem handlePrivateMessage_errors
    (recipientClientId message client_id timestamp : string)
    (s : EventsService) :
  let out :=
    EventsGateway.handlePrivateMessage recipientClientId message client_id
      timestamp s in
  (userObjects s !! client_id = None →
     out = ([errorResponse "Sender not found"], s))
  ∧ (userObjects s !! recipientClientId = None →
     ∃ msg, out = ([errorResponse msg], s)
            ∧ filter isDirect out.1 = []
            ∧ (is_Some (userObjects s !! client_id) →
               msg = "Recipient not found")).
Proof.
  cbn zeta. unfold EventsGateway.handlePrivateMessage, getUserObject. split.
  - by intros ->.
  - intros ->. destruct (userObjects s !! client_id) as [sender|].
    + by exists "Recipient not found".
    + exists "Sender not found". repeat split. by intros [? ?].
Qed.

(** ** removeUser *)

Section RemoveUser.

Implicit Types (gs : gmap string ChatGroup) (l : list string).

Lemma purge_purge clientId group :
  purge clientId (purge clientId group) = purge clientId group.
Proof.
  unfold purge, setMembers. cbn [members id name createdBy].
  by rewrite without_without.
Qed.

Lemma dropMember_lookup clientId gs a g :
  dropMember clientId gs a !! g
  = if decide (g = a) then purge clientId <$> gs !! g else gs !! g.
Proof.
  unfold dropMember. destruct (decide (g = a)) as [->|Hne].
  - destruct (gs !! a) as [group|] eqn:Ha; [|by rewrite Ha].
    by rewrite lookup_insert_eq.
  - destruct (gs !! a) as [group|]; [|done].
    by rewrite lookup_insert_ne.
Qed.

(** What the [forEach] loop has done to each stored group. *)
Lemma forEach_dropMember_lookup clientId l gs g :
  foldl (dropMember clientId) gs l !! g
  = if decide (g ∈ l) then purge clientId <$> gs !! g else gs !! g.
Proof.
  revert gs. induction l as [|a l IH]; intros gs.
  - cbn. rewrite decide_False; [done|]. apply not_elem_of_nil.
  - cbn [foldl]. rewrite IH, dropMember_lookup.
    destruct (decide (g = a)) as [->|Hne].
    + rewrite (decide_True (P := a ∈ a :: l)) by apply list_elem_of_here.
      destruct (decide (a ∈ l)); [|done].
      destruct (gs !! a) as [group|]; [|done].
      cbn. by rewrite purge_purge.
    + destruct (decide (g ∈ l)) as [Hin|Hout].
      * rewrite decide_True; [done|]. by apply list_elem_of_further.
      * rewrite decide_False; [done|].
        intros [?|?]%elem_of_cons; tauto.
Qed.

Lemma removeUser_groups clientId s g :
  groups (removeUser clientId s) !! g
  = if decide (g ∈ groupIdsOf s clientId)
    then purge clientId <$> groups s !! g
    else groups s !! g.
Proof. unfold removeUser. cbn. apply forEach_dropMember_lookup. Qed.

Lemma removeUser_groupIdsOf clientId s connId :
  groupIdsOf (removeUser clientId s) connId
  = if decide (connId = clientId) then [] else groupIdsOf s connId.
Proof.
  unfold groupIdsOf at 1, removeUser. cbn.
  destruct (decide (connId = clientId)) as [->|Hne].
  - by rewrite lookup_delete_eq.
  - by rewrite lookup_delete_ne.
Qed.

(** Disconnecting never takes a group out of the [groups] map. *)
Lemma removeUser_keeps_groups clientId s g :
  is_Some (groups (removeUser clientId s) !! g) ↔ is_Some (groups s !! g).
Proof.
  rewrite removeUser_groups.
  destruct (decide (g ∈ groupIdsOf s clientId)); [|done].
  by rewrite fmap_is_Some.
Qed.

Lemma removeUser_identity clientId s :
  getUser clientId (removeUser clientId s) = None
  ∧ getUserObject clientId (removeUser clientId s) = None.
Proof.
  unfold getUser, getUserObject, removeUser. cbn.
  by rewrite !lookup_delete_eq.
Qed.

End RemoveUser.

(** ** How each operation changes the two sides of the membership relation *)

Section Effects.

Implicit Types (s : EventsService) (g c : string).

Lemma default_insert (m : gmap string (list string)) c (l : list string) c' :
  default [] (<[c := l]> m !! c')
  = if decide (c' = c) then l else default [] (m !! c').
Proof.
  destruct (decide (c' = c)) as [->|Hne].
  - by rewrite lookup_insert_eq.
  - by rewrite lookup_insert_ne.
Qed.

Lemma addUser_groupIdsOf c n s c' :
  groupIdsOf (addUser c n s) c'
  = if decide (c' = c) then [] else groupIdsOf s c'.
Proof. unfold groupIdsOf, addUser. cbn. apply default_insert. Qed.

Lemma createGroup_fresh g n c s :
  groups s !! g = None →
  let s' := after s (createGroup g n c s) in
  groups s' = <[g := mkChatGroup g n c [c]]> (groups s)
  ∧ ∀ c', groupIdsOf s' c'
          = if decide (c' = c) then groupIdsOf s c ++ [g] else groupIdsOf s c'.
Proof.
  intros Hg. unfold createGroup. rewrite Hg. cbn. split; [done|].
  intros c'. unfold groupIdsOf at 1. cbn. apply default_insert.
Qed.

Lemma createGroup_taken g n c s :
  is_Some (groups s !! g) → after s (createGroup g n c s) = s.
Proof. intros [old Hg]. unfold createGroup. by rewrite Hg. Qed.

Lemma joinGroup_newcomer g c s group :
  groups s !! g = Some group → c ∉ members group →
  let s' := after s (joinGroup g c s) in
  groups s' = <[g := setMembers (members group ++ [c]) group]> (groups s)
  ∧ ∀ c', groupIdsOf s' c'
          = if decide (c' = c) then groupIdsOf s c ++ [g] else groupIdsOf s c'.
Proof.
  intros Hg Hout. unfold joinGroup. rewrite Hg.
  rewrite decide_False by done. cbn. split; [done|].
  intros c'. unfold groupIdsOf at 1. cbn. apply default_insert.
Qed.

Lemma joinGroup_nothing g c s :
  (groups s !! g = None ∨ ∃ group, groups s !! g = Some group ∧ c ∈ members group) →
  after s (joinGroup g c s) = s.
Proof.
  unfold joinGroup. intros [Hg|(group & Hg & Hin)]; rewrite Hg; [done|].
  by rewrite decide_True.
Qed.

End Effects.

(** ** From the index to the groups: kept by every operation *)

Section IndexSound.

Implicit Types (s : EventsService) (g c : string).

Lemma indexSound_newService : indexSound newService.
Proof. intros c g Hin. by apply not_elem_of_nil in Hin. Qed.

Lemma indexSound_addUser c n s : indexSound s → indexSound (addUser c n s).
Proof.
  intros Hs c' g'. rewrite addUser_groupIdsOf.
  destruct (decide (c' = c)); [by intros ?%not_elem_of_nil|].
  apply Hs.
Qed.

Lemma indexSound_removeUser c s : indexSound s → indexSound (removeUser c s).
Proof.
  intros Hs c' g'. rewrite removeUser_groupIdsOf.
  destruct (decide (c' = c)) as [->|Hne]; [by intros ?%not_elem_of_nil|].
  intros (group & Hg & Hin)%Hs. rewrite removeUser_groups, Hg.
  destruct (decide (g' ∈ groupIdsOf s c)).
  - exists (purge c group). split; [done|].
    cbn. by apply elem_of_without.
  - by exists group.
Qed.

Lemma indexSound_createGroup g n c s :
  indexSound s → indexSound (after s (createGroup g n c s)).
Proof.
  intros Hs. destruct (groups s !! g) as [old|] eqn:Hg.
  { by rewrite createGroup_taken. }
  destruct (createGroup_fresh g n c s Hg) as [Hgroups Hindex].
  intros c' g'. rewrite Hgroups, Hindex.
  destruct (decide (c' = c)) as [->|Hc].
  - intros [Hold| ->%list_elem_of_singleton]%elem_of_app.
    + destruct (Hs _ _ Hold) as (group & Hg' & Hin).
      exists group. split; [|done].
      rewrite lookup_insert_ne; [done|]. congruence.
    + eexists. rewrite lookup_insert_eq. split; [done|]. by left.
  - intros Hold. destruct (Hs _ _ Hold) as (group & Hg' & Hin).
    exists group. split; [|done].
    rewrite lookup_insert_ne; [done|]. congruence.
Qed.

Lemma indexSound_joinGroup g c s :
  indexSound s → indexSound (after s (joinGroup g c s)).
Proof.
  intros Hs. destruct (groups s !! g) as [group|] eqn:Hg;
    [|by rewrite joinGroup_nothing; [|left]].
  destruct (decide (c ∈ members group)) as [Hin|Hout].
  { rewrite joinGroup_nothing; [done|]. right. eauto. }
  destruct (joinGroup_newcomer g c s group Hg Hout) as [Hgroups Hindex].
  intros c' g'. rewrite Hgroups, Hindex.
  assert (Hkeep : g' ∈ groupIdsOf s c' →
    ∃ group', <[g := setMembers (members group ++ [c]) group]> (groups s) !! g'
              = Some group' ∧ c' ∈ members group').
  { intros Hold. destruct (Hs _ _ Hold) as (group' & Hg' & Hin).
    destruct (decide (g' = g)) as [->|Hne].
    - rewrite lookup_insert_eq. eexists. split; [done|].
      cbn. apply elem_of_app. left. congruence.
    - rewrite lookup_insert_ne by done. eauto. }
  destruct (decide (c' = c)) as [->|Hc]; [|done].
  intros [Hold| ->%list_elem_of_singleton]%elem_of_app; [by apply Hkeep|].
  rewrite lookup_insert_eq. eexists. split; [done|].
  cbn. apply elem_of_app. right. by left.
Qed.

Lemma indexSound_leaveGroup g c s :
  indexSound s → indexSound (leaveGroup g c s).
Proof.
  intros Hs. destruct (groups s !! g) as [group|] eqn:Hg;
    [|by rewrite leaveGroup_missing].
  intros c' g'.
  rewrite (leaveGroup_groupIdsOf g c s c' group Hg).
  rewrite (leaveGroup_groups g c s group Hg).
  intros Hidx.
  assert (g' ∈ groupIdsOf s c' ∧ (c' = c → g' ≠ g)) as [Hold Hself].
  { destruct (decide (c' = c)) as [->|]; [|done].
    apply elem_of_without in Hidx. tauto. }
  destruct (Hs _ _ Hold) as (group' & Hg' & Hin).
  destruct (decide (g' = g)) as [->|Hne].
  - assert (group' = group) as -> by congruence.
    assert (c' ∈ without c (members group)) as Hrest.
    { apply elem_of_without. split; [done|]. intros ->. by apply Hself. }
    rewrite decide_False.
    + rewrite lookup_insert_eq. eexists. split; [done|]. exact Hrest.
    + intros Hnil. rewrite Hnil in Hrest. by apply not_elem_of_nil in Hrest.
  - exists group'. split; [|done].
    destruct (decide (without c (members group) = [])).
    + by rewrite lookup_delete_ne.
    + by rewrite lookup_insert_ne.
Qed.

Lemma indexSound_step s op : indexSound s → indexSound (step s op).
Proof.
  destruct op; cbn [step];
    auto using indexSound_addUser, indexSound_removeUser,
      indexSound_createGroup, indexSound_joinGroup, indexSound_leaveGroup.
Qed.

Lemma indexSound_run ops s : indexSound s → indexSound (run ops s).
Proof.
  revert s. induction ops as [|op ops IH]; intros s Hs; [done|].
  cbn. apply IH. by apply indexSound_step.
Qed.

(** Whatever the clients have sent: a group id found in a connection's
    index names a stored group that lists the connection. *)
Lemma indexSound_reachable s : reachable s → indexSound s.
Proof. intros [ops ->]. apply indexSound_run, indexSound_newService. Qed.

End IndexSound.

(** ** From the groups to the index: kept by everything but a second join *)

Section IndexComplete.

Implicit Types (s : EventsService) (g c : string).

Lemma indexComplete_newService : indexComplete newService.
Proof. intros c g group Hg. cbn in Hg. by rewrite lookup_empty in Hg. Qed.

(** [addUser] only keeps it for a connection that is in no group. *)
Lemma indexComplete_addUser c n s :
  memberOfNone c s → indexComplete s → indexComplete (addUser c n s).
Proof.
  intros Hnone Hs c' g' group Hg Hin. rewrite addUser_groupIdsOf.
  destruct (decide (c' = c)) as [->|Hne].
  - by destruct (Hnone g' group Hg).
  - by apply (Hs c' g' group).
Qed.

Lemma indexComplete_removeUser c s :
  indexComplete s → indexComplete (removeUser c s).
Proof.
  intros Hs c' g' group. rewrite removeUser_groups, removeUser_groupIdsOf.
  destruct (decide (g' ∈ groupIdsOf s c)) as [Hidx|Hidx].
  - intros (old & Hg & ->)%fmap_Some [Hin Hne]%elem_of_without.
    rewrite decide_False by done. by apply (Hs c' g' old).
  - intros Hg Hin. destruct (decide (c' = c)) as [->|Hne].
    + destruct Hidx. by apply (Hs c g' group).
    + by apply (Hs c' g' group).
Qed.

Lemma indexComplete_createGroup g n c s :
  indexComplete s → indexComplete (after s (createGroup g n c s)).
Proof.
  intros Hs. destruct (groups s !! g) as [old|] eqn:Hg.
  { by rewrite createGroup_taken. }
  destruct (createGroup_fresh g n c s Hg) as [Hgroups Hindex].
  intros c' g' group. rewrite Hgroups, Hindex.
  destruct (decide (g' = g)) as [->|Hne].
  - rewrite lookup_insert_eq. intros [= <-] ->%list_elem_of_singleton.
    rewrite decide_True by done. apply elem_of_app. right. by left.
  - rewrite lookup_insert_ne by done. intros Hg' Hin.
    pose proof (Hs c' g' group Hg' Hin) as Hold.
    destruct (decide (c' = c)) as [->|]; [|done].
    apply elem_of_app. by left.
Qed.

Lemma indexComplete_joinGroup g c s :
  indexComplete s → indexComplete (after s (joinGroup g c s)).
Proof.
  intros Hs. destruct (groups s !! g) as [group|] eqn:Hg;
    [|by rewrite joinGroup_nothing; [|left]].
  destruct (decide (c ∈ members group)) as [Hin|Hout].
  { rewrite joinGroup_nothing; [done|]. right. eauto. }
  destruct (joinGroup_newcomer g c s group Hg Hout) as [Hgroups Hindex].
  intros c' g' group'. rewrite Hgroups, Hindex.
  destruct (decide (g' = g)) as [->|Hne].
  - rewrite lookup_insert_eq. intros [= <-]. cbn.
    intros [Hold| ->%list_elem_of_singleton]%elem_of_app.
    + pose proof (Hs c' g group Hg Hold) as Hidx.
      destruct (decide (c' = c)) as [->|]; [|done].
      apply elem_of_app. by left.
    + rewrite decide_True by done. apply elem_of_app. right. by left.
  - rewrite lookup_insert_ne by done. intros Hg' Hin.
    pose proof (Hs c' g' group' Hg' Hin) as Hold.
    destruct (decide (c' = c)) as [->|]; [|done].
    apply elem_of_app. by left.
Qed.

Lemma indexComplete_leaveGroup g c s :
  indexComplete s → indexComplete (leaveGroup g c s).
Proof.
  intros Hs. destruct (groups s !! g) as [group|] eqn:Hg;
    [|by rewrite leaveGroup_missing].
  intros c' g' group'.
  rewrite (leaveGroup_groupIdsOf g c s c' group Hg).
  rewrite (leaveGroup_groups g c s group Hg).
  destruct (decide (g' = g)) as [->|Hne].
  - destruct (decide (without c (members group) = [])).
    { by rewrite lookup_delete_eq. }
    rewrite lookup_insert_eq. intros [= <-]. cbn.
    intros [Hin Hc]%elem_of_without.
    rewrite decide_False by done. by apply (Hs c' g group).
  - intros Hg' Hin.
    assert (groups s !! g' = Some group') as Hold.
    { destruct (decide (without c (members group) = [])).
      - by rewrite lookup_delete_ne in Hg'.
      - by rewrite lookup_insert_ne in Hg'. }
    pose proof (Hs c' g' group' Hold Hin) as Hidx.
    destruct (decide (c' = c)) as [->|]; [|done].
    by apply elem_of_without.
Qed.

Lemma bidirectional_of_halves s :
  indexSound s → indexComplete s → bidirectional s.
Proof.
  intros Hsound Hcomplete c g group Hg. split.
  - by apply Hcomplete.
  - intros (group' & Hg' & Hin)%Hsound. congruence.
Qed.

End IndexComplete.

(** ** Histories in which no connection joins while it is in a group *)

Section FirstJoins.

Lemma indexComplete_step s op :
  firstJoin s op → indexComplete s → indexComplete (step s op).
Proof.
  destruct op; cbn [step firstJoin]; intros Hfirst;
    auto using indexComplete_addUser, indexComplete_removeUser,
      indexComplete_createGroup, indexComplete_joinGroup,
      indexComplete_leaveGroup.
Qed.

Lemma indexComplete_run ops s :
  firstJoins s ops → indexComplete s → indexComplete (run ops s).
Proof.
  revert s. induction ops as [|op ops IH]; intros s Hops Hs; [done|].
  destruct Hops as [Hop Hops]. cbn. apply IH; [done|].
  by apply indexComplete_step.
Qed.

(** The membership relation is the same on both sides after every such
    history. *)
Lemma bidirectional_firstJoins ops :
  firstJoins newService ops → bidirectional (run ops newService).
Proof.
  intros Hops. apply bidirectional_of_halves.
  - apply indexSound_run, indexSound_newService.
  - by apply indexComplete_run; [|apply indexComplete_newService].
Qed.

End FirstJoins.

(** ** Empty groups *)

Section NoEmptyGroup.

Implicit Types (s : EventsService) (g c : string).

Lemma noEmptyGroup_newService : noEmptyGroup newService.
Proof. intros g group Hg. cbn in Hg. by rewrite lookup_empty in Hg. Qed.

Lemma noEmptyGroup_addUser c n s : noEmptyGroup s → noEmptyGroup (addUser c n s).
Proof. done. Qed.

Lemma noEmptyGroup_createGroup g n c s :
  noEmptyGroup s → noEmptyGroup (after s (createGroup g n c s)).
Proof.
  intros Hs. destruct (groups s !! g) as [old|] eqn:Hg.
  { by rewrite createGroup_taken. }
  destruct (createGroup_fresh g n c s Hg) as [Hgroups _].
  intros g' group. rewrite Hgroups.
  destruct (decide (g' = g)) as [->|Hne].
  - rewrite lookup_insert_eq. by intros [= <-].
  - rewrite lookup_insert_ne by done. apply Hs.
Qed.

Lemma noEmptyGroup_joinGroup g c s :
  noEmptyGroup s → noEmptyGroup (after s (joinGroup g c s)).
Proof.
  intros Hs. destruct (groups s !! g) as [group|] eqn:Hg;
    [|by rewrite joinGroup_nothing; [|left]].
  destruct (decide (c ∈ members group)) as [Hin|Hout].
  { rewrite joinGroup_nothing; [done|]. right. eauto. }
  destruct (joinGroup_newcomer g c s group Hg Hout) as [Hgroups _].
  intros g' group'. rewrite Hgroups.
  destruct (decide (g' = g)) as [->|Hne].
  - rewrite lookup_insert_eq. intros [= <-]. cbn.
    intros Hnil. by apply app_eq_nil in Hnil as [_ ?].
  - rewrite lookup_insert_ne by done. apply Hs.
Qed.

(** [leaveGroup] deletes the group it empties, and that even without the
    hypothesis on the other groups for the group it is called on. *)
Lemma noEmptyGroup_leaveGroup g c s :
  noEmptyGroup s → noEmptyGroup (leaveGroup g c s).
Proof.
  intros Hs. destruct (groups s !! g) as [group|] eqn:Hg;
    [|by rewrite leaveGroup_missing].
  intros g' group'. rewrite (leaveGroup_groups g c s group Hg).
  destruct (decide (without c (members group) = [])) as [Hnil|Hrest].
  - destruct (decide (g' = g)) as [->|Hne].
    + by rewrite lookup_delete_eq.
    + rewrite lookup_delete_ne by done. apply Hs.
  - destruct (decide (g' = g)) as [->|Hne].
    + rewrite lookup_insert_eq. by intros [= <-].
    + rewrite lookup_insert_ne by done. apply Hs.
Qed.

Lemma noEmptyGroup_step s op :
  (∀ c, op ≠ RemoveUser c) → noEmptyGroup s → noEmptyGroup (step s op).
Proof.
  destruct op as [c n|c|g n c|g c|g c]; cbn [step]; intros Hop;
    [apply noEmptyGroup_addUser| |apply noEmptyGroup_createGroup
    |apply noEmptyGroup_joinGroup|apply noEmptyGroup_leaveGroup].
  by destruct (Hop c).
Qed.

(** What [removeUser] does to a group whose only member disconnects. *)
Lemma removeUser_sole_member c g group s :
  groups s !! g = Some group → members group = [c] →
  g ∈ groupIdsOf s c →
  groups (removeUser c s) !! g = Some (setMembers [] group).
Proof.
  intros Hg Hsole Hidx. rewrite removeUser_groups, Hg.
  rewrite decide_True by done. cbn. unfold purge. rewrite Hsole.
  do 2 f_equal. unfold without. by rewrite filter_cons_False, filter_nil by tauto.
Qed.

(** After a disconnect no stored group lists the connection, provided the
    index listed all its groups. *)
Lemma removeUser_memberOfNone c s :
  indexComplete s → memberOfNone c (removeUser c s).
Proof.
  intros Hs g group. rewrite removeUser_groups.
  destruct (decide (g ∈ groupIdsOf s c)) as [Hidx|Hidx].
  - intros (old & Hg & ->)%fmap_Some. cbn. rewrite elem_of_without. tauto.
  - intros Hg Hin. destruct Hidx. by apply (Hs c g group).
Qed.

End NoEmptyGroup.

(** C2.  The no-empty-group invariant is broken by [removeUser]: when the
    only member of a stored group disconnects, the group stays in [groups]
    with an empty member array, so the registry has an empty group although
    it had none before.  ([leaveGroup] deletes such a group; see
    [noEmptyGroup_leaveGroup].) *)
Theorem removeUser_leaves_empty_group (clientId groupId : string)
    (group : ChatGroup) (s : EventsService) :
  noEmptyGroup s →
  groups s !! groupId = Some group →
  members group = [clientId] →
  groupId ∈ groupIdsOf s clientId →
  getGroup groupId (removeUser clientId s) = Some (setMembers [] group)
  ∧ ¬ noEmptyGroup (removeUser clientId s).
Proof.
  intros _ Hg Hsole Hidx.
  pose proof (removeUser_sole_member _ _ _ _ Hg Hsole Hidx) as Hleft.
  split; [done|]. intros Hno. by apply (Hno _ _ Hleft).
Qed.

Lemma removeUser_leaves_empty_group_witness :
  getGroup "g1" (removeUser "c1" aliceAlone)
  = Some (mkChatGroup "g1" "Team" "c1" [])
  ∧ ¬ noEmptyGroup (removeUser "c1" aliceAlone).
Proof.
  apply (removeUser_leaves_empty_group "c1" "g1"
           (mkChatGroup "g1" "Team" "c1" ["c1"]) aliceAlone).
  - apply (noEmptyGroup_step _ (CreateGroup "g1" "Team" "c1")); [done|].
    apply (noEmptyGroup_step _ (AddUser "c1" "alice")); [done|].
    apply noEmptyGroup_newService.
  - reflexivity.
  - reflexivity.
  - vm_compute. left.
Defined.

(** C3.  The id of a group is not freed by a disconnect: the group that
    the disconnect of its only member has emptied is still stored, so
    creating a group under the same id throws. *)
Theorem createGroup_after_sole_member_left
    (clientId groupId groupName creator : string) (group : ChatGroup)
    (s : EventsService) :
  groups s !! groupId = Some group →
  members group = [clientId] →
  groupId ∈ groupIdsOf s clientId →
  createGroup groupId groupName creator (removeUser clientId s)
  = Throw ("Group with ID " +:+ groupId +:+ " already exists").
Proof.
  intros Hg Hsole Hidx. unfold createGroup.
  by rewrite (removeUser_sole_member _ _ _ _ Hg Hsole Hidx).
Qed.

Lemma createGroup_after_sole_member_left_witness :
  createGroup "g1" "Team" "c2" (removeUser "c1" aliceAlone)
  = Throw "Group with ID g1 already exists".
Proof.
  apply (createGroup_after_sole_member_left "c1" "g1" "Team" "c2"
           (mkChatGroup "g1" "Team" "c1" ["c1"]) aliceAlone).
  - reflexivity.
  - reflexivity.
  - vm_compute. left.
Defined.

(** ** A second join *)

Section SecondJoin.

Variables (connId newName : string) (s : EventsService).

(** [addUser] stores the new name, leaves every group as it is and
    overwrites the connection's [clientGroups] entry with a new empty
    array. *)
Lemma addUser_effect :
  getUser connId (addUser connId newName s) = Some newName
  ∧ getUserObject connId (addUser connId newName s)
    = Some (mkUser connId newName)
  ∧ groups (addUser connId newName s) = groups s
  ∧ groupIdsOf (addUser connId newName s) connId = [].
Proof.
  unfold getUser, getUserObject, groupIdsOf, addUser. cbn.
  by rewrite !lookup_insert_eq.
Qed.

End SecondJoin.

(** C1.  The bidirectional invariant is broken by [addUser] for a connection
    that is a member of a stored group: the group still lists the
    connection, the connection's index has been emptied.  (On histories without such a
    call the two sides agree; see [bidirectional_firstJoins].) *)
Theorem addUser_again_breaks_bidirectional (connId newName groupId : string)
    (group : ChatGroup) (s : EventsService) :
  groups s !! groupId = Some group →
  connId ∈ members group →
  ¬ bidirectional (addUser connId newName s).
Proof.
  intros Hg Hin Hbi.
  destruct (addUser_effect connId newName s) as (_ & _ & Hgroups & Hindex).
  rewrite <- Hgroups in Hg. apply (Hbi connId groupId group Hg) in Hin.
  rewrite Hindex in Hin. by apply not_elem_of_nil in Hin.
Qed.

Lemma addUser_again_breaks_bidirectional_witness :
  bidirectional aliceAlone
  ∧ ¬ bidirectional
        (run [AddUser "c1" "alice"; CreateGroup "g1" "Team" "c1";
              AddUser "c1" "alice"] newService).
Proof.
  split.
  - apply (bidirectional_firstJoins
             [AddUser "c1" "alice"; CreateGroup "g1" "Team" "c1"]).
    repeat split. intros g group Hg. cbn in Hg. by rewrite lookup_empty in Hg.
  - apply (addUser_again_breaks_bidirectional "c1" "alice" "g1"
             (mkChatGroup "g1" "Team" "c1" ["c1"]) aliceAlone).
    + reflexivity.
    + cbn. left.
Defined.

(** C7.  Membership is not preserved on the index side: for a connection that is
    registered and in a group, a second [addUser] does replace the name and
    does leave the group's member array alone, but the connection's own list
    of groups is empty afterwards, so the memberships it records are not the
    ones recorded before the call. *)
Theorem addUser_again_resets_index (connId oldName newName groupId : string)
    (group : ChatGroup) (s : EventsService) :
  getUser connId s = Some oldName →
  groups s !! groupId = Some group →
  connId ∈ members group →
  groupId ∈ groupIdsOf s connId →
  let s' := addUser connId newName s in
  getUser connId s' = Some newName
  ∧ groups s' !! groupId = Some group
  ∧ groupIdsOf s' connId = []
  ∧ groupIdsOf s' connId ≠ groupIdsOf s connId
  ∧ getUserGroups connId s' = [].
Proof.
  intros _ Hg Hin Hidx. cbn zeta.
  destruct (addUser_effect connId newName s) as (Hname & _ & Hgroups & Hindex).
  split; [done|]. split; [by rewrite Hgroups|]. split; [done|]. split.
  - rewrite Hindex. intros Heq. rewrite <- Heq in Hidx.
    by apply not_elem_of_nil in Hidx.
  - unfold getUserGroups. by rewrite Hindex.
Qed.

Lemma addUser_again_resets_index_witness :
  groupIdsOf aliceAlone "c1" = ["g1"]
  ∧ getUser "c1" (addUser "c1" "alicia" aliceAlone) = Some "alicia"
  ∧ groups (addUser "c1" "alicia" aliceAlone) !! "g1"
    = Some (mkChatGroup "g1" "Team" "c1" ["c1"])
  ∧ groupIdsOf (addUser "c1" "alicia" aliceAlone) "c1" = []
  ∧ groupIdsOf (addUser "c1" "alicia" aliceAlone) "c1"
    ≠ groupIdsOf aliceAlone "c1"
  ∧ getUserGroups "c1" (addUser "c1" "alicia" aliceAlone) = [].
Proof.
  split; [reflexivity|].
  apply (addUser_again_resets_index "c1" "alice" "alicia" "g1"
           (mkChatGroup "g1" "Team" "c1" ["c1"]) aliceAlone).
  - reflexivity.
  - reflexivity.
  - cbn. left.
  - vm_compute. left.
Defined.

(** A private message from alice (c1) to a connection that never joined. *)
Lemma handlePrivateMessage_errors_witness :
  ∃ msg,
    EventsGateway.handlePrivateMessage "c9" "hi" "c1" "t0" aliceAlone
    = ([errorResponse msg], aliceAlone)
    ∧ filter isDirect
        (EventsGateway.handlePrivateMessage "c9" "hi" "c1" "t0" aliceAlone).1
      = []
    ∧ (is_Some (userObjects aliceAlone !! "c1") → msg = "Recipient not found").
Proof.
  destruct (handlePrivateMessage_errors "c9" "hi" "c1" "t0" aliceAlone)
    as [_ Hrecipient].
  apply Hrecipient. reflexivity.
Defined.

(** * The rest of the service and of the gateway *)

(** ** Ordered Maps *)

Section JsMapFacts.

Context {V : Type}.
Implicit Types (m : list (string * V)) (k : string) (v : V).

Lemma content_get k m : JsMap.content m !! k = JsMap.get k m.
Proof.
  induction m as [|[k' v'] m IH]; [done|].
  cbn [JsMap.get]. unfold JsMap.content in *. cbn [list_to_map foldr].
  destruct (decide (k' = k)) as [->|Hne].
  - apply lookup_insert_eq.
  - by rewrite lookup_insert_ne.
Qed.

Lemma content_set k v m :
  JsMap.content (JsMap.set k v m) = <[k := v]> (JsMap.content m).
Proof.
  unfold JsMap.content. induction m as [|[k' v'] m IH]; [done|].
  cbn [JsMap.set]. destruct (decide (k' = k)) as [->|Hne].
  - cbn. by rewrite insert_insert_eq.
  - cbn. rewrite IH. by apply insert_insert_ne.
Qed.

Lemma content_delete k m :
  JsMap.content (JsMap.delete k m) = delete k (JsMap.content m).
Proof.
  unfold JsMap.content, JsMap.delete.
  induction m as [|[k' v'] m IH]; [symmetry; apply delete_empty|].
  destruct (decide (k' = k)) as [->|Hne].
  - rewrite filter_cons_False by (cbn; tauto).
    cbn. by rewrite delete_insert_eq.
  - rewrite filter_cons_True by done.
    cbn. rewrite IH. by rewrite delete_insert_ne.
Qed.

Lemma get_None k m : JsMap.get k m = None ↔ k ∉ JsMap.keys m.
Proof.
  unfold JsMap.keys. induction m as [|[k' v'] m IH].
  - split; [intros _; apply not_elem_of_nil|done].
  - cbn. rewrite not_elem_of_cons. destruct (decide (k' = k)) as [->|Hne].
    + split; [done|tauto].
    + rewrite IH. split; [by split|tauto].
Qed.

Lemma get_Some_elem k v m : JsMap.get k m = Some v → (k, v) ∈ m.
Proof.
  induction m as [|[k' v'] m IH]; [done|]. cbn.
  destruct (decide (k' = k)) as [->|Hne].
  - intros [= ->]. by left.
  - intros Hget. right. by apply IH.
Qed.

Lemma elem_get k v m : NoDup (JsMap.keys m) → (k, v) ∈ m → JsMap.get k m = Some v.
Proof.
  unfold JsMap.keys. induction m as [|[k' v'] m IH]; [by intros _ ?%not_elem_of_nil|].
  cbn. intros [Hfresh Hrest]%NoDup_cons [[= -> ->]|Hin]%elem_of_cons.
  - by rewrite decide_True.
  - destruct (decide (k' = k)) as [->|Hne]; [|by apply IH].
    destruct Hfresh. by apply (list_elem_of_fmap_2 fst) in Hin.
Qed.

(** A new key goes to the end. *)
Lemma set_absent k v m : JsMap.get k m = None → JsMap.set k v m = m ++ [(k, v)].
Proof.
  induction m as [|[k' v'] m IH]; [done|]. cbn.
  destruct (decide (k' = k)); [done|]. intros Hget. by rewrite IH.
Qed.

(** A present key keeps its place. *)
Lemma keys_set_present k v m :
  is_Some (JsMap.get k m) → JsMap.keys (JsMap.set k v m) = JsMap.keys m.
Proof.
  unfold JsMap.keys. induction m as [|[k' v'] m IH]; [by intros [? ?]|].
  cbn. destruct (decide (k' = k)) as [->|Hne]; [done|].
  intros Hget. cbn. by rewrite IH.
Qed.

Lemma keys_set k v m :
  JsMap.keys (JsMap.set k v m)
  = if decide (k ∈ JsMap.keys m) then JsMap.keys m else JsMap.keys m ++ [k].
Proof.
  destruct (JsMap.get k m) as [old|] eqn:Hget.
  - rewrite keys_set_present by (by rewrite Hget).
    rewrite decide_True; [done|].
    destruct (decide (k ∈ JsMap.keys m)) as [|Hout]; [done|].
    apply get_None in Hout. congruence.
  - rewrite set_absent by done. rewrite decide_False by (by apply get_None).
    unfold JsMap.keys. by rewrite fmap_app.
Qed.

Lemma keys_delete k m :
  JsMap.keys (JsMap.delete k m) = without k (JsMap.keys m).
Proof.
  unfold JsMap.keys, JsMap.delete, without.
  induction m as [|[k' v'] m IH]; [done|].
  destruct (decide (k' = k)) as [->|Hne].
  - rewrite filter_cons_False by (cbn; tauto). rewrite fmap_cons. cbn [fst].
    rewrite filter_cons_False by tauto. exact IH.
  - rewrite filter_cons_True by done. rewrite !fmap_cons. cbn [fst].
    rewrite filter_cons_True by done. by rewrite IH.
Qed.

Lemma NoDup_keys_set k v m :
  NoDup (JsMap.keys m) → NoDup (JsMap.keys (JsMap.set k v m)).
Proof.
  intros Hm. rewrite keys_set. destruct (decide (k ∈ JsMap.keys m)); [done|].
  apply NoDup_app. split; [done|]. split; [|apply NoDup_singleton].
  intros x Hx ->%list_elem_of_singleton. done.
Qed.

Lemma NoDup_keys_delete k m :
  NoDup (JsMap.keys m) → NoDup (JsMap.keys (JsMap.delete k m)).
Proof. intros Hm. rewrite keys_delete. by apply NoDup_filter. Qed.


End JsMapFacts.

(** ** The ordered service does what the unordered one does *)

(** Reduce the field projections applied to a record, and nothing else. *)
Ltac fields :=
  cbn [Ordered.users Ordered.userObjects Ordered.groups Ordered.clientGroups
       users userObjects groups clientGroups members setMembers purge
       unorderedResult].

Section Simulation.

Implicit Types (s : Ordered.Service) (g c n : string).

Lemma omap_pointwise {A B : Type} (f f' : A → option B) (l : list A) :
  (∀ x, f x = f' x) → omap f l = omap f' l.
Proof.
  intros Hff'. induction l as [|x l IH]; [done|].
  cbn [omap list_omap]. by rewrite Hff', IH.
Qed.

Lemma unordered_groupIdsOf s c :
  Ordered.groupIdsOf s c = groupIdsOf (unordered s) c.
Proof.
  unfold Ordered.groupIdsOf, groupIdsOf, unordered. fields.
  by rewrite content_get.
Qed.

Lemma unordered_getUser c s : Ordered.getUser c s = getUser c (unordered s).
Proof.
  unfold Ordered.getUser, getUser, unordered. fields. by rewrite content_get.
Qed.

Lemma unordered_getUserObject c s :
  Ordered.getUserObject c s = getUserObject c (unordered s).
Proof.
  unfold Ordered.getUserObject, getUserObject, unordered. fields.
  by rewrite content_get.
Qed.

Lemma unordered_getGroup g s : Ordered.getGroup g s = getGroup g (unordered s).
Proof.
  unfold Ordered.getGroup, getGroup, unordered. fields. by rewrite content_get.
Qed.

Lemma unordered_getGroupMembers g s :
  Ordered.getGroupMembers g s = getGroupMembers g (unordered s).
Proof.
  unfold Ordered.getGroupMembers, getGroupMembers, unordered. fields.
  rewrite content_get. destruct (JsMap.get g (Ordered.groups s)); [|done].
  apply omap_pointwise. intros member. by rewrite content_get.
Qed.

Lemma unordered_getUserGroups c s :
  Ordered.getUserGroups c s = getUserGroups c (unordered s).
Proof.
  unfold Ordered.getUserGroups, getUserGroups.
  rewrite unordered_groupIdsOf.
  apply omap_pointwise. intros g. unfold unordered. fields.
  by rewrite content_get.
Qed.

Lemma unordered_addUser c n s :
  unordered (Ordered.addUser c n s) = addUser c n (unordered s).
Proof.
  unfold unordered, Ordered.addUser, addUser. fields.
  by rewrite !content_set.
Qed.

Lemma content_dropMember c (gs : list (string * ChatGroup)) g :
  JsMap.content (Ordered.dropMember c gs g)
  = dropMember c (JsMap.content gs) g.
Proof.
  unfold Ordered.dropMember, dropMember. rewrite content_get.
  destruct (JsMap.get g gs); [|done]. apply content_set.
Qed.

Lemma content_forEach c (l : list string) (gs : list (string * ChatGroup)) :
  JsMap.content (foldl (Ordered.dropMember c) gs l)
  = foldl (dropMember c) (JsMap.content gs) l.
Proof.
  revert gs. induction l as [|g l IH]; intros gs; [done|].
  cbn [foldl]. by rewrite IH, content_dropMember.
Qed.

Lemma unordered_removeUser c s :
  unordered (Ordered.removeUser c s) = removeUser c (unordered s).
Proof.
  unfold removeUser. rewrite <- unordered_groupIdsOf.
  unfold unordered, Ordered.removeUser. fields.
  by rewrite !content_delete, content_forEach.
Qed.

Lemma unordered_createGroup g n c s :
  unorderedResult (Ordered.createGroup g n c s)
  = createGroup g n c (unordered s).
Proof.
  unfold createGroup. rewrite <- unordered_groupIdsOf.
  unfold Ordered.createGroup, unordered. fields. rewrite content_get.
  destruct (JsMap.get g (Ordered.groups s)); [done|].
  fields. unfold unordered. fields. by rewrite !content_set.
Qed.

Lemma unordered_joinGroup g c s :
  unorderedResult (Ordered.joinGroup g c s) = joinGroup g c (unordered s).
Proof.
  unfold joinGroup. rewrite <- unordered_groupIdsOf.
  unfold Ordered.joinGroup, unordered. fields. rewrite content_get.
  destruct (JsMap.get g (Ordered.groups s)) as [group|]; [|done].
  destruct (decide (c ∈ members group)); [done|].
  fields. unfold unordered. fields. by rewrite !content_set.
Qed.

Lemma unordered_leaveGroup g c s :
  unordered (Ordered.leaveGroup g c s) = leaveGroup g c (unordered s).
Proof.
  unfold leaveGroup. rewrite <- unordered_groupIdsOf.
  unfold Ordered.leaveGroup, unordered. fields. rewrite content_get.
  destruct (JsMap.get g (Ordered.groups s)) as [group|]; [|done].
  fields. destruct (decide (length (without c (members group)) = 0)).
  - by rewrite content_delete, !content_set.
  - by rewrite !content_set.
Qed.

Lemma unordered_after s (r : Completion (ChatGroup * Ordered.Service)) :
  unordered (Ordered.after s r) = after (unordered s) (unorderedResult r).
Proof. by destruct r as [[group s1]|]. Qed.

Lemma unordered_step s op :
  unordered (Ordered.step s op) = step (unordered s) op.
Proof.
  destruct op; cbn [Ordered.step step].
  - apply unordered_addUser.
  - apply unordered_removeUser.
  - by rewrite unordered_after, unordered_createGroup.
  - by rewrite unordered_after, unordered_joinGroup.
  - apply unordered_leaveGroup.
Qed.

Lemma unordered_run ops s :
  unordered (Ordered.run ops s) = run ops (unordered s).
Proof.
  revert s. induction ops as [|op ops IH]; intros s; [done|].
  cbn. unfold Ordered.run, run in IH. by rewrite IH, unordered_step.
Qed.

Lemma unordered_newService : unordered Ordered.newService = newService.
Proof. done. Qed.

End Simulation.

(** ** Stored objects and their keys *)

Section Keyed.

Implicit Types (s : EventsService) (g c n : string).

Lemma createGroup_identities g n c s :
  users (after s (createGroup g n c s)) = users s
  ∧ userObjects (after s (createGroup g n c s)) = userObjects s.
Proof. unfold createGroup. by destruct (groups s !! g). Qed.

Lemma joinGroup_identities g c s :
  users (after s (joinGroup g c s)) = users s
  ∧ userObjects (after s (joinGroup g c s)) = userObjects s.
Proof.
  unfold joinGroup. destruct (groups s !! g) as [group|]; [|done].
  by destruct (decide (c ∈ members group)).
Qed.

Lemma keyed_newService : keyed newService.
Proof. split; [|done]. intros g group Hg. cbn in Hg. by rewrite lookup_empty in Hg. Qed.

Lemma keyed_addUser c n s : keyed s → keyed (addUser c n s).
Proof.
  intros [Hgroups Hnames]. split; [done|]. intros c'. cbn.
  destruct (decide (c' = c)) as [->|Hne].
  - by rewrite !lookup_insert_eq.
  - rewrite !lookup_insert_ne by done. apply Hnames.
Qed.

Lemma keyed_removeUser c s : keyed s → keyed (removeUser c s).
Proof.
  intros [Hgroups Hnames]. split.
  - intros g group. rewrite removeUser_groups.
    destruct (decide (g ∈ groupIdsOf s c)); [|apply Hgroups].
    intros (old & Hg & ->)%fmap_Some. cbn. by apply Hgroups.
  - intros c'. cbn. destruct (decide (c' = c)) as [->|Hne].
    + by rewrite !lookup_delete_eq.
    + rewrite !lookup_delete_ne by done. apply Hnames.
Qed.

Lemma keyed_createGroup g n c s :
  keyed s → keyed (after s (createGroup g n c s)).
Proof.
  intros [Hgroups Hnames].
  destruct (createGroup_identities g n c s) as [Hu Ho].
  split; [|intros c'; rewrite Hu, Ho; apply Hnames].
  destruct (groups s !! g) as [old|] eqn:Hg.
  { by rewrite createGroup_taken. }
  destruct (createGroup_fresh g n c s Hg) as [-> _]. intros g' group.
  destruct (decide (g' = g)) as [->|Hne].
  - rewrite lookup_insert_eq. by intros [= <-].
  - rewrite lookup_insert_ne by done. apply Hgroups.
Qed.

Lemma keyed_joinGroup g c s : keyed s → keyed (after s (joinGroup g c s)).
Proof.
  intros [Hgroups Hnames].
  destruct (joinGroup_identities g c s) as [Hu Ho].
  split; [|intros c'; rewrite Hu, Ho; apply Hnames].
  destruct (groups s !! g) as [group|] eqn:Hg;
    [|by rewrite joinGroup_nothing; [|left]].
  destruct (decide (c ∈ members group)) as [Hin|Hout].
  { rewrite joinGroup_nothing; [done|]. right. eauto. }
  destruct (joinGroup_newcomer g c s group Hg Hout) as [-> _].
  intros g' group'. destruct (decide (g' = g)) as [->|Hne].
  - rewrite lookup_insert_eq. intros [= <-]. cbn. by apply Hgroups.
  - rewrite lookup_insert_ne by done. apply Hgroups.
Qed.

Lemma keyed_leaveGroup g c s : keyed s → keyed (leaveGroup g c s).
Proof.
  intros [Hgroups Hnames].
  destruct (leaveGroup_identities g c s) as [Hu Ho].
  split; [|intros c'; rewrite Hu, Ho; apply Hnames].
  destruct (groups s !! g) as [group|] eqn:Hg;
    [|by rewrite leaveGroup_missing].
  intros g' group'. rewrite (leaveGroup_groups g c s group Hg).
  destruct (decide (without c (members group) = [])).
  - intros [_ Hg']%lookup_delete_Some. by apply Hgroups.
  - destruct (decide (g' = g)) as [->|Hne].
    + rewrite lookup_insert_eq. intros [= <-]. cbn. by apply Hgroups.
    + rewrite lookup_insert_ne by done. apply Hgroups.
Qed.

Lemma keyed_step s op : keyed s → keyed (step s op).
Proof.
  destruct op; cbn [step];
    auto using keyed_addUser, keyed_removeUser, keyed_createGroup,
      keyed_joinGroup, keyed_leaveGroup.
Qed.

Lemma keyed_run ops s : keyed s → keyed (run ops s).
Proof.
  revert s. induction ops as [|op ops IH]; intros s Hs; [done|].
  cbn. apply IH. by apply keyed_step.
Qed.

End Keyed.

(** ** No repeated entries *)

Section NoRepeats.

Implicit Types (s : EventsService) (g c n : string).

Lemma noRepeats_newService : noRepeats newService.
Proof.
  split; [|intros c; apply NoDup_nil_2].
  intros g group Hg. cbn in Hg. by rewrite lookup_empty in Hg.
Qed.

Lemma noRepeats_addUser c n s : noRepeats s → noRepeats (addUser c n s).
Proof.
  intros [Hmembers Hindex]. split; [done|]. intros c'.
  rewrite addUser_groupIdsOf. destruct (decide (c' = c)); [apply NoDup_nil_2|done].
Qed.

Lemma noRepeats_removeUser c s : noRepeats s → noRepeats (removeUser c s).
Proof.
  intros [Hmembers Hindex]. split.
  - intros g group. rewrite removeUser_groups.
    destruct (decide (g ∈ groupIdsOf s c)); [|apply Hmembers].
    intros (old & Hg & ->)%fmap_Some. cbn. apply NoDup_filter. by apply (Hmembers g).
  - intros c'. rewrite removeUser_groupIdsOf.
    destruct (decide (c' = c)); [apply NoDup_nil_2|done].
Qed.

Lemma NoDup_snoc (l : list string) (x : string) :
  NoDup l → x ∉ l → NoDup (l ++ [x]).
Proof.
  intros Hl Hx. apply NoDup_app. split; [done|]. split; [|apply NoDup_singleton].
  by intros y Hy ->%list_elem_of_singleton.
Qed.

Lemma noRepeats_createGroup g n c s :
  indexSound s → noRepeats s → noRepeats (after s (createGroup g n c s)).
Proof.
  intros Hsound [Hmembers Hindex].
  destruct (groups s !! g) as [old|] eqn:Hg.
  { by rewrite createGroup_taken. }
  destruct (createGroup_fresh g n c s Hg) as [Hgroups Hidx]. split.
  - intros g' group. rewrite Hgroups. destruct (decide (g' = g)) as [->|Hne].
    + rewrite lookup_insert_eq. intros [= <-]. apply NoDup_singleton.
    + rewrite lookup_insert_ne by done. apply Hmembers.
  - intros c'. rewrite Hidx. destruct (decide (c' = c)) as [->|]; [|done].
    apply NoDup_snoc; [done|]. intros (group & Hg' & _)%Hsound. congruence.
Qed.

Lemma noRepeats_joinGroup g c s :
  indexSound s → noRepeats s → noRepeats (after s (joinGroup g c s)).
Proof.
  intros Hsound [Hmembers Hindex].
  destruct (groups s !! g) as [group|] eqn:Hg;
    [|by rewrite joinGroup_nothing; [|left]].
  destruct (decide (c ∈ members group)) as [Hin|Hout].
  { rewrite joinGroup_nothing; [done|]. right. eauto. }
  destruct (joinGroup_newcomer g c s group Hg Hout) as [Hgroups Hidx]. split.
  - intros g' group'. rewrite Hgroups. destruct (decide (g' = g)) as [->|Hne].
    + rewrite lookup_insert_eq. intros [= <-]. cbn.
      apply NoDup_snoc; [by apply (Hmembers g)|done].
    + rewrite lookup_insert_ne by done. apply Hmembers.
  - intros c'. rewrite Hidx. destruct (decide (c' = c)) as [->|]; [|done].
    apply NoDup_snoc; [done|]. intros (group' & Hg' & Hin)%Hsound. congruence.
Qed.

Lemma noRepeats_leaveGroup g c s : noRepeats s → noRepeats (leaveGroup g c s).
Proof.
  intros [Hmembers Hindex].
  destruct (groups s !! g) as [group|] eqn:Hg;
    [|by rewrite leaveGroup_missing].
  split.
  - intros g' group'. rewrite (leaveGroup_groups g c s group Hg).
    destruct (decide (without c (members group) = [])).
    + intros [_ Hg']%lookup_delete_Some. by apply (Hmembers g').
    + destruct (decide (g' = g)) as [->|Hne].
      * rewrite lookup_insert_eq. intros [= <-]. cbn.
        apply NoDup_filter. by apply (Hmembers g).
      * rewrite lookup_insert_ne by done. apply Hmembers.
  - intros c'. rewrite (leaveGroup_groupIdsOf g c s c' group Hg).
    destruct (decide (c' = c)); [|done]. by apply NoDup_filter.
Qed.

Lemma noRepeats_step s op :
  indexSound s → noRepeats s → noRepeats (step s op).
Proof.
  destruct op; cbn [step];
    auto using noRepeats_addUser, noRepeats_removeUser, noRepeats_createGroup,
      noRepeats_joinGroup, noRepeats_leaveGroup.
Qed.

Lemma noRepeats_run ops s :
  indexSound s → noRepeats s → noRepeats (run ops s).
Proof.
  revert s. induction ops as [|op ops IH]; intros s Hsound Hs; [done|].
  cbn. apply IH; [by apply indexSound_step|by apply noRepeats_step].
Qed.

End NoRepeats.

(** ** What the queries return in a reachable registry *)

Section Queries.

Lemma omap_ids (f : string → option ChatGroup) (l : list string) :
  (∀ g, g ∈ l → ∃ group, f g = Some group ∧ id group = g) →
  id <$> omap f l = l.
Proof.
  induction l as [|g l IH]; intros Hl; [done|].
  destruct (Hl g) as (group & Hg & Hid); [by left|].
  cbn [omap list_omap]. rewrite Hg. rewrite fmap_cons, Hid. f_equal.
  apply IH. intros g' Hg'. apply Hl. by right.
Qed.

Lemma omap_registered (f : string → option User) (l : list string) :
  (∀ c u, f c = Some u → clientId u = c) →
  clientId <$> omap f l = filter (λ c, is_Some (f c)) l.
Proof.
  intros Hf. induction l as [|c l IH]; [done|].
  cbn [omap list_omap]. destruct (f c) as [u|] eqn:Hc.
  - rewrite filter_cons_True by (by rewrite Hc).
    rewrite fmap_cons, (Hf c u Hc). by f_equal.
  - rewrite filter_cons_False; [done|]. rewrite Hc. by intros [? ?].
Qed.

End Queries.

(** X1.  After any sequence of operations no member array lists a
    connection twice and no connection's array of group ids lists a group
    twice. *)
Theorem no_repeated_entries (ops : list Op) :
  noRepeats (run ops newService).
Proof.
  apply noRepeats_run; [apply indexSound_newService|apply noRepeats_newService].
Qed.

(** X2.  After any sequence of operations [getUserObject] and [getUser]
    agree: a connection has a [User] object exactly when it has a name, and
    the object carries the connection's id and that name. *)
Theorem getUserObject_getUser (ops : list Op) (connId : string) :
  getUserObject connId (run ops newService)
  = (λ n, mkUser connId n) <$> getUser connId (run ops newService).
Proof.
  destruct (keyed_run ops newService keyed_newService) as [_ Hnames].
  apply Hnames.
Qed.

(** X3.  After any sequence of operations the group that [getGroup] finds
    under an id carries that id. *)
Theorem getGroup_id (ops : list Op) (groupId : string) (group : ChatGroup) :
  getGroup groupId (run ops newService) = Some group → id group = groupId.
Proof.
  destruct (keyed_run ops newService keyed_newService) as [Hgroups _].
  apply Hgroups.
Qed.

Lemma getGroup_id_witness :
  id (mkChatGroup "g1" "Team" "c1" ["c1"]) = "g1".
Proof.
  apply (getGroup_id [AddUser "c1" "alice"; CreateGroup "g1" "Team" "c1"]
           "g1" (mkChatGroup "g1" "Team" "c1" ["c1"])).
  reflexivity.
Defined.

(** X4.  After any sequence of operations [getUserGroups] drops nothing: it
    returns one stored group for every id in the connection's array, in that
    order, and each of these groups lists the connection as a member. *)
Theorem getUserGroups_complete (ops : list Op) (connId : string) :
  let s := run ops newService in
  id <$> getUserGroups connId s = groupIdsOf s connId
  ∧ ∀ group, group ∈ getUserGroups connId s → connId ∈ members group.
Proof.
  cbn zeta. set (s := run ops newService).
  assert (indexSound s) as Hsound
    by apply indexSound_run, indexSound_newService.
  destruct (keyed_run ops newService keyed_newService) as [Hkeys _].
  fold s in Hkeys. unfold getUserGroups. split.
  - apply omap_ids. intros g (group & Hg & _)%Hsound.
    exists group. split; [done|]. by apply Hkeys.
  - intros group (g & Hidx & Hg)%list_elem_of_omap.
    destruct (Hsound _ _ Hidx) as (group' & Hg' & Hin). congruence.
Qed.

(** X5.  In a registry reached by any sequence of operations,
    [getGroupMembers] of a stored group lists, in member order, exactly the
    members that have an Identity, each as the object that [getUserObject]
    returns for it; for an id that is not stored it returns the empty
    array. *)
Theorem getGroupMembers_registered (ops : list Op) (groupId : string) :
  let s := run ops newService in
  match getGroup groupId s with
  | None => getGroupMembers groupId s = []
  | Some group =>
      clientId <$> getGroupMembers groupId s
      = filter (λ c, is_Some (getUserObject c s)) (members group)
      ∧ ∀ u, u ∈ getGroupMembers groupId s →
             getUserObject (clientId u) s = Some u
  end.
Proof.
  cbn zeta. set (s := run ops newService).
  destruct (keyed_run ops newService keyed_newService) as [_ Hnames].
  fold s in Hnames.
  assert (∀ c u, userObjects s !! c = Some u → clientId u = c) as Hkey.
  { intros c u. rewrite Hnames. by intros (n & _ & ->)%fmap_Some. }
  unfold getGroup, getGroupMembers, getUserObject.
  destruct (groups s !! groupId) as [group|]; [|done]. split.
  - by apply omap_registered.
  - intros u (c & _ & Hc)%list_elem_of_omap. by rewrite (Hkey c u Hc).
Qed.

(** ** How the operations compose *)

(** X6.  A second [removeUser] for the same connection changes nothing, in
    whatever state the first one is called. *)
Theorem removeUser_twice (clientId : string) (s : EventsService) :
  removeUser clientId (removeUser clientId s) = removeUser clientId s.
Proof.
  unfold removeUser at 1.
  rewrite removeUser_groupIdsOf, decide_True by done. cbn [foldl].
  unfold removeUser. cbn [users userObjects groups clientGroups].
  by rewrite !delete_delete_eq.
Qed.

Lemma without_snoc (clientId : string) (xs : list string) :
  clientId ∉ xs → without clientId (xs ++ [clientId]) = xs.
Proof.
  intros Hout. unfold without. rewrite filter_app.
  fold (without clientId xs). rewrite (without_absent _ _ Hout).
  rewrite filter_cons_False by tauto. by rewrite filter_nil, app_nil_r.
Qed.

(** X7.  Joining a group and leaving it again undoes the join: for a
    connection that is not a member of a stored, non-empty group, and whose
    array does not list the group, the groups, the identities and every
    connection's array read afterwards as they did before. *)
Theorem leaveGroup_after_joinGroup (groupId clientId : string)
    (group : ChatGroup) (s : EventsService) :
  groups s !! groupId = Some group →
  members group ≠ [] →
  clientId ∉ members group →
  groupId ∉ groupIdsOf s clientId →
  let s' := leaveGroup groupId clientId (after s (joinGroup groupId clientId s)) in
  groups s' = groups s
  ∧ users s' = users s
  ∧ userObjects s' = userObjects s
  ∧ ∀ connId, groupIdsOf s' connId = groupIdsOf s connId.
Proof.
  intros Hg Hne Hout Hidx. cbn zeta.
  destruct (joinGroup_newcomer groupId clientId s group Hg Hout)
    as [Hgroups Hindex].
  destruct (joinGroup_identities groupId clientId s) as [Hu Ho].
  set (s1 := after s (joinGroup groupId clientId s)) in *.
  set (joined := setMembers (members group ++ [clientId]) group) in *.
  assert (groups s1 !! groupId = Some joined) as Hg1
    by (rewrite Hgroups; apply lookup_insert_eq).
  destruct (leaveGroup_identities groupId clientId s1) as [Hu1 Ho1].
  split; [|split; [congruence|split; [congruence|]]].
  - rewrite (leaveGroup_groups groupId clientId s1 joined Hg1).
    unfold joined. cbn [members setMembers]. rewrite (without_snoc _ _ Hout).
    rewrite decide_False by done. rewrite Hgroups, insert_insert_eq.
    unfold setMembers. cbn. fold (setMembers (members group) group).
    rewrite setMembers_same. by apply insert_id.
  - intros connId.
    rewrite (leaveGroup_groupIdsOf groupId clientId s1 connId joined Hg1).
    rewrite !Hindex. destruct (decide (connId = clientId)) as [->|]; [|done].
    unfold without. rewrite filter_app.
    rewrite filter_cons_False by tauto. rewrite filter_nil, app_nil_r.
    by apply without_absent.
Qed.

Lemma leaveGroup_after_joinGroup_witness :
  groups (leaveGroup "g1" "c2" (after aliceAlone (joinGroup "g1" "c2" aliceAlone)))
  = groups aliceAlone
  ∧ users (leaveGroup "g1" "c2" (after aliceAlone (joinGroup "g1" "c2" aliceAlone)))
    = users aliceAlone
  ∧ userObjects
      (leaveGroup "g1" "c2" (after aliceAlone (joinGroup "g1" "c2" aliceAlone)))
    = userObjects aliceAlone
  ∧ ∀ connId,
      groupIdsOf
        (leaveGroup "g1" "c2" (after aliceAlone (joinGroup "g1" "c2" aliceAlone)))
        connId
      = groupIdsOf aliceAlone connId.
Proof.
  apply (leaveGroup_after_joinGroup "g1" "c2"
           (mkChatGroup "g1" "Team" "c1" ["c1"]) aliceAlone).
  - reflexivity.
  - discriminate.
  - cbn. intros Hin. by apply list_elem_of_singleton in Hin.
  - vm_compute. apply not_elem_of_nil.
Defined.

(** X8.  A group that its creator leaves while alone in it is deleted and
    its id is free again: the groups are as before the creation, and a
    later [createGroup] under the same id returns the new group. *)
Theorem leaveGroup_after_createGroup
    (groupId groupName creator name2 creator2 : string) (s : EventsService) :
  groups s !! groupId = None →
  let s' :=
    leaveGroup groupId creator (after s (createGroup groupId groupName creator s)) in
  groups s' = groups s
  ∧ getGroup groupId s' = None
  ∧ ∃ s2, createGroup groupId name2 creator2 s'
          = Return (mkChatGroup groupId name2 creator2 [creator2], s2).
Proof.
  intros Hg. cbn zeta.
  destruct (createGroup_fresh groupId groupName creator s Hg) as [Hgroups _].
  set (s1 := after s (createGroup groupId groupName creator s)) in *.
  set (created := mkChatGroup groupId groupName creator [creator]) in *.
  assert (groups s1 !! groupId = Some created) as Hg1
    by (rewrite Hgroups; apply lookup_insert_eq).
  assert (groups (leaveGroup groupId creator s1) = groups s) as Hback.
  { rewrite (leaveGroup_groups groupId creator s1 created Hg1).
    unfold created. cbn [members]. unfold without.
    rewrite filter_cons_False by tauto. rewrite filter_nil.
    rewrite decide_True by done. rewrite Hgroups, delete_insert_eq.
    by apply delete_id. }
  split; [done|]. unfold getGroup, createGroup. rewrite Hback, Hg.
  split; [done|]. by eexists.
Qed.

Lemma leaveGroup_after_createGroup_witness :
  groups (leaveGroup "g2" "c1"
            (after aliceAlone (createGroup "g2" "Chess" "c1" aliceAlone)))
  = groups aliceAlone
  ∧ getGroup "g2"
      (leaveGroup "g2" "c1"
         (after aliceAlone (createGroup "g2" "Chess" "c1" aliceAlone)))
    = None
  ∧ ∃ s2,
      createGroup "g2" "Go" "c2"
        (leaveGroup "g2" "c1"
           (after aliceAlone (createGroup "g2" "Chess" "c1" aliceAlone)))
      = Return (mkChatGroup "g2" "Go" "c2" ["c2"], s2).
Proof.
  apply (leaveGroup_after_createGroup "g2" "Chess" "c1" "Go" "c2" aliceAlone).
  reflexivity.
Defined.

(** X9.  [removeUser] only concerns the connection it is called for: every
    group id stays stored with its id, name and creator, another connection
    is a member of a group afterwards exactly when it was before, and its
    name, its [User] object and its array of group ids are untouched.  The
    connection itself has no Identity afterwards. *)
Theorem removeUser_frame (clientId : string) (s : EventsService) :
  let s' := removeUser clientId s in
  getUser clientId s' = None
  ∧ getUserObject clientId s' = None
  ∧ (∀ g, match groups s !! g with
          | None => groups s' !! g = None
          | Some group =>
              ∃ group', groups s' !! g = Some group'
                ∧ id group' = id group ∧ name group' = name group
                ∧ createdBy group' = createdBy group
                ∧ ∀ connId, connId ≠ clientId →
                    (connId ∈ members group' ↔ connId ∈ members group)
          end)
  ∧ ∀ connId, connId ≠ clientId →
      getUser connId s' = getUser connId s
      ∧ getUserObject connId s' = getUserObject connId s
      ∧ groupIdsOf s' connId = groupIdsOf s connId.
Proof.
  cbn zeta. destruct (removeUser_identity clientId s) as [Hu Ho].
  split; [done|]. split; [done|]. split.
  - intros g. rewrite removeUser_groups.
    destruct (groups s !! g) as [group|];
      [|by destruct (decide (g ∈ groupIdsOf s clientId))].
    destruct (decide (g ∈ groupIdsOf s clientId)).
    + exists (purge clientId group). repeat split; try done.
      * cbn. rewrite elem_of_without. tauto.
      * cbn. rewrite elem_of_without. tauto.
    + by exists group.
  - intros connId Hne. rewrite removeUser_groupIdsOf, decide_False by done.
    unfold getUser, getUserObject, removeUser. cbn.
    by rewrite !lookup_delete_ne.
Qed.

(** X10.  [createGroup], [joinGroup] and [leaveGroup] only concern the group
    and the connection they are called with: the identities are untouched,
    every other group is stored as before, and every other connection's
    array of group ids is as before. *)
Theorem group_operations_frame (groupId groupName clientId : string)
    (op : Op) (s : EventsService) :
  op = CreateGroup groupId groupName clientId
  ∨ op = JoinGroup groupId clientId
  ∨ op = LeaveGroup groupId clientId →
  users (step s op) = users s
  ∧ userObjects (step s op) = userObjects s
  ∧ (∀ g, g ≠ groupId → getGroup g (step s op) = getGroup g s)
  ∧ (∀ c, c ≠ clientId → groupIdsOf (step s op) c = groupIdsOf s c).
Proof.
  unfold getGroup. intros [->|[->| ->]]; cbn [step].
  - destruct (createGroup_identities groupId groupName clientId s) as [Hu Ho].
    split; [done|]. split; [done|].
    destruct (groups s !! groupId) as [old|] eqn:Hg.
    { by rewrite createGroup_taken. }
    destruct (createGroup_fresh groupId groupName clientId s Hg) as [-> Hidx].
    split.
    + intros g Hne. by rewrite lookup_insert_ne.
    + intros c Hne. by rewrite Hidx, decide_False.
  - destruct (joinGroup_identities groupId clientId s) as [Hu Ho].
    split; [done|]. split; [done|].
    destruct (groups s !! groupId) as [group|] eqn:Hg;
      [|by rewrite joinGroup_nothing; [|left]].
    destruct (decide (clientId ∈ members group)) as [Hin|Hout].
    { rewrite joinGroup_nothing; [done|]. right. eauto. }
    destruct (joinGroup_newcomer groupId clientId s group Hg Hout) as [-> Hidx].
    split.
    + intros g Hne. by rewrite lookup_insert_ne.
    + intros c Hne. by rewrite Hidx, decide_False.
  - destruct (leaveGroup_identities groupId clientId s) as [Hu Ho].
    split; [done|]. split; [done|].
    destruct (groups s !! groupId) as [group|] eqn:Hg;
      [|by rewrite leaveGroup_missing].
    split.
    + intros g Hne. rewrite (leaveGroup_groups groupId clientId s group Hg).
      destruct (decide (without clientId (members group) = [])).
      * by rewrite lookup_delete_ne.
      * by rewrite lookup_insert_ne.
    + intros c Hne.
      by rewrite (leaveGroup_groupIdsOf groupId clientId s c group Hg),
        decide_False.
Qed.

Lemma group_operations_frame_witness :
  users (step aliceAlone (JoinGroup "g1" "c2")) = users aliceAlone
  ∧ userObjects (step aliceAlone (JoinGroup "g1" "c2")) = userObjects aliceAlone
  ∧ (∀ g, g ≠ "g1" →
       getGroup g (step aliceAlone (JoinGroup "g1" "c2")) = getGroup g aliceAlone)
  ∧ (∀ c, c ≠ "c2" →
       groupIdsOf (step aliceAlone (JoinGroup "g1" "c2")) c
       = groupIdsOf aliceAlone c).
Proof.
  apply (group_operations_frame "g1" "" "c2" (JoinGroup "g1" "c2") aliceAlone).
  right. left. reflexivity.
Defined.

Section AfterLeaving.

Variables (groupId clientId : string) (s : EventsService).

Lemma leaveGroup_not_member (group : ChatGroup) :
  groups (leaveGroup groupId clientId s) !! groupId = Some group →
  clientId ∉ members group.
Proof.
  destruct (groups s !! groupId) as [old|] eqn:Hg.
  - rewrite (leaveGroup_groups groupId clientId s old Hg).
    destruct (decide (without clientId (members old) = [])).
    + by rewrite lookup_delete_eq.
    + rewrite lookup_insert_eq. intros [= <-]. cbn.
      rewrite elem_of_without. tauto.
  - rewrite leaveGroup_missing by done. by rewrite Hg.
Qed.

Lemma leaveGroup_not_listed :
  is_Some (groups s !! groupId) →
  groupId ∉ groupIdsOf (leaveGroup groupId clientId s) clientId.
Proof.
  intros [old Hg].
  rewrite (leaveGroup_groupIdsOf groupId clientId s clientId old Hg).
  rewrite decide_True by done. rewrite elem_of_without. tauto.
Qed.

End AfterLeaving.

(** X11.  After [leaveGroup], in whatever state it is called, the connection
    is not a member of the group if the group is still stored, and the
    group's id is not in the connection's array. *)
Theorem leaveGroup_leaves (groupId clientId : string) (s : EventsService) :
  let s' := leaveGroup groupId clientId s in
  (∀ group, getGroup groupId s' = Some group → clientId ∉ members group)
  ∧ (is_Some (getGroup groupId s) → groupId ∉ groupIdsOf s' clientId).
Proof.
  cbn zeta. unfold getGroup. split.
  - apply leaveGroup_not_member.
  - apply leaveGroup_not_listed.
Qed.

(** ** Where an entry stands in an ordered Map *)

Section JsMapOrder.

Context {V : Type}.
Implicit Types (m : list (string * V)) (k : string) (v : V).

(** Overwriting a present key changes that entry and no other. *)
Lemma set_present k v old m :
  JsMap.get k m = Some old →
  ∃ m1 m2, m = m1 ++ (k, old) :: m2 ∧ JsMap.set k v m = m1 ++ (k, v) :: m2.
Proof.
  induction m as [|[k' v'] m IH]; [done|]. cbn.
  destruct (decide (k' = k)) as [->|Hne].
  - intros [= ->]. by exists [], m.
  - intros (m1 & m2 & -> & Hset)%IH.
    exists ((k', v') :: m1), m2. split; [done|]. cbn. by rewrite Hset.
Qed.

Lemma delete_absent k m : JsMap.get k m = None → JsMap.delete k m = m.
Proof.
  unfold JsMap.delete. induction m as [|[k' v'] m IH]; [done|]. cbn [JsMap.get].
  destruct (decide (k' = k)) as [->|Hne]; [done|]. intros Hget.
  rewrite filter_cons_True by done. by rewrite IH.
Qed.


End JsMapOrder.

Section JsMapFmap.

Context {V W : Type} (h : string → V → W).
Implicit Types (m : list (string * V)) (k : string).

Lemma lift_set k (v : V) m :
  (λ e, (e.1, h e.1 e.2)) <$> JsMap.set k v m
  = JsMap.set k (h k v) ((λ e, (e.1, h e.1 e.2)) <$> m).
Proof.
  induction m as [|[k' v'] m IH]; [done|]. cbn [JsMap.set].
  rewrite !fmap_cons. cbn [fst snd JsMap.set].
  destruct (decide (k' = k)) as [->|Hne]; [done|].
  by rewrite fmap_cons, IH.
Qed.

Lemma lift_delete k m :
  (λ e, (e.1, h e.1 e.2)) <$> JsMap.delete k m
  = JsMap.delete k ((λ e, (e.1, h e.1 e.2)) <$> m).
Proof.
  unfold JsMap.delete. induction m as [|[k' v'] m IH]; [done|].
  rewrite fmap_cons. cbn [fst snd].
  destruct (decide (k' = k)) as [->|Hne].
  - rewrite !filter_cons_False by (cbn; tauto). exact IH.
  - rewrite !filter_cons_True by done. by rewrite fmap_cons, IH.
Qed.

End JsMapFmap.

(** ** The identity Maps of the ordered service *)

Section OrderedIdentities.

Implicit Types (s : Ordered.Service) (g c n : string).

Lemma ordered_group_calls_identities s op :
  (∀ c n, op ≠ AddUser c n) → (∀ c, op ≠ RemoveUser c) →
  Ordered.users (Ordered.step s op) = Ordered.users s
  ∧ Ordered.userObjects (Ordered.step s op) = Ordered.userObjects s.
Proof.
  destruct op as [c n|c|g n c|g c|g c]; intros Hadd Hremove;
    cbn [Ordered.step].
  - by destruct (Hadd c n).
  - by destruct (Hremove c).
  - unfold Ordered.createGroup. by destruct (JsMap.get g (Ordered.groups s)).
  - unfold Ordered.joinGroup.
    destruct (JsMap.get g (Ordered.groups s)) as [group|]; [|done].
    by destruct (decide (c ∈ members group)).
  - unfold Ordered.leaveGroup.
    by destruct (JsMap.get g (Ordered.groups s)).
Qed.

Lemma lockstep_step s op : lockstep s → lockstep (Ordered.step s op).
Proof.
  unfold lockstep. intros Hs.
  destruct op as [c n|c|g n c|g c|g c].
  - cbn [Ordered.step]. unfold Ordered.addUser. fields.
    rewrite Hs. symmetry. apply (lift_set (λ k v, mkUser k v)).
  - cbn [Ordered.step]. unfold Ordered.removeUser. fields.
    rewrite Hs. symmetry. apply (lift_delete (λ k v, mkUser k v)).
  - destruct (ordered_group_calls_identities s (CreateGroup g n c))
      as [-> ->]; done.
  - destruct (ordered_group_calls_identities s (JoinGroup g c))
      as [-> ->]; done.
  - destruct (ordered_group_calls_identities s (LeaveGroup g c))
      as [-> ->]; done.
Qed.

Lemma lockstep_run ops s : lockstep s → lockstep (Ordered.run ops s).
Proof.
  revert s. induction ops as [|op ops IH]; intros s Hs; [done|].
  cbn. apply IH. by apply lockstep_step.
Qed.

Lemma keys_forEach c (l : list string) (gs : list (string * ChatGroup)) :
  JsMap.keys (foldl (Ordered.dropMember c) gs l) = JsMap.keys gs.
Proof.
  revert gs. induction l as [|g l IH]; intros gs; [done|].
  cbn [foldl]. rewrite IH. unfold Ordered.dropMember.
  destruct (JsMap.get g gs) as [group|] eqn:Hg; [|done].
  apply keys_set_present. by rewrite Hg.
Qed.

Lemma distinctKeys_step s op : distinctKeys s → distinctKeys (Ordered.step s op).
Proof.
  intros [Husers Hgroups]. destruct op as [c n|c|g n c|g c|g c];
    cbn [Ordered.step].
  - split; [by apply NoDup_keys_set|done].
  - split; [by apply NoDup_keys_delete|].
    unfold Ordered.removeUser. fields. by rewrite keys_forEach.
  - unfold Ordered.createGroup.
    destruct (JsMap.get g (Ordered.groups s)); [done|].
    split; [done|]. by apply NoDup_keys_set.
  - unfold Ordered.joinGroup.
    destruct (JsMap.get g (Ordered.groups s)) as [group|]; [|done].
    destruct (decide (c ∈ members group)); [done|].
    split; [done|]. by apply NoDup_keys_set.
  - unfold Ordered.leaveGroup.
    destruct (JsMap.get g (Ordered.groups s)) as [group|]; [|done].
    split; [done|]. cbn [Ordered.after Ordered.groups].
    destruct (decide (length (members (purge c group)) = 0)).
    + by apply NoDup_keys_delete, NoDup_keys_set.
    + by apply NoDup_keys_set.
Qed.

Lemma distinctKeys_run ops s : distinctKeys s → distinctKeys (Ordered.run ops s).
Proof.
  revert s. induction ops as [|op ops IH]; intros s Hs; [done|].
  cbn. apply IH. by apply distinctKeys_step.
Qed.

Lemma distinctKeys_newService : distinctKeys Ordered.newService.
Proof. split; apply NoDup_nil_2. Qed.

End OrderedIdentities.

(** ** The enumerations *)

Section Listings.

Lemma values_lift {V W : Type} (h : string → V → W) (m : list (string * V)) :
  JsMap.keys ((λ e, (e.1, h e.1 e.2)) <$> m) = JsMap.keys m
  ∧ JsMap.values ((λ e, (e.1, h e.1 e.2)) <$> m) = (λ e, h e.1 e.2) <$> m.
Proof.
  unfold JsMap.keys, JsMap.values. rewrite <- !list_fmap_compose.
  split; by apply list_fmap_ext.
Qed.

Lemma ids_are_keys (m : list (string * ChatGroup)) :
  (∀ k group, (k, group) ∈ m → id group = k) →
  id <$> JsMap.values m = JsMap.keys m.
Proof.
  unfold JsMap.values, JsMap.keys. induction m as [|[k group] m IH]; [done|].
  intros Hm. rewrite !fmap_cons. cbn [fst snd]. f_equal.
  - apply Hm. by left.
  - apply IH. intros k' group' Hin. apply Hm. by right.
Qed.

Lemma values_set_same {B : Type} (h : ChatGroup → B) k (v v' : ChatGroup)
    (m : list (string * ChatGroup)) :
  JsMap.get k m = Some v → h v' = h v →
  h <$> JsMap.values (JsMap.set k v' m) = h <$> JsMap.values m.
Proof.
  intros Hget Hh. destruct (set_present k v' v m Hget) as (m1 & m2 & -> & ->).
  unfold JsMap.values. rewrite !fmap_app, !fmap_cons. cbn [snd].
  by rewrite Hh.
Qed.

Lemma reachable_groups_keyed (ops : list Op) (k : string) (group : ChatGroup) :
  (k, group) ∈ Ordered.groups (Ordered.run ops Ordered.newService) →
  id group = k
  ∧ Ordered.getGroup k (Ordered.run ops Ordered.newService) = Some group.
Proof.
  set (s := Ordered.run ops Ordered.newService). intros Hin.
  destruct (distinctKeys_run ops _ distinctKeys_newService) as [_ Hgroups].
  fold s in Hgroups.
  pose proof (elem_get k group _ Hgroups Hin) as Hget. split; [|done].
  destruct (keyed_run ops newService keyed_newService) as [Hkeys _].
  apply Hkeys. rewrite <- unordered_newService, <- unordered_run. fold s.
  unfold unordered. fields. by rewrite content_get.
Qed.

End Listings.

(** X12.  After any sequence of operations [getAllUsers] and
    [getAllUserObjects] list the same connections in the same order: the
    names are the names of the objects, no connection is listed twice, and
    an object is listed exactly when [getUserObject] returns it for its own
    [clientId]. *)
Theorem getAllUsers_getAllUserObjects (ops : list Op) :
  let s := Ordered.run ops Ordered.newService in
  Ordered.getAllUsers s = username <$> Ordered.getAllUserObjects s
  ∧ NoDup (clientId <$> Ordered.getAllUserObjects s)
  ∧ ∀ u, u ∈ Ordered.getAllUserObjects s
         ↔ Ordered.getUserObject (clientId u) s = Some u.
Proof.
  cbn zeta. set (s := Ordered.run ops Ordered.newService).
  assert (lockstep s) as Hlock by by apply lockstep_run.
  destruct (distinctKeys_run ops _ distinctKeys_newService) as [Husers _].
  fold s in Husers.
  destruct (values_lift (λ k n, mkUser k n) (Ordered.users s))
    as [Hkeys Hvalues].
  unfold lockstep in Hlock.
  unfold Ordered.getAllUsers, Ordered.getAllUserObjects, Ordered.getUserObject.
  rewrite Hlock, Hvalues. split; [|split].
  - unfold JsMap.values. rewrite <- list_fmap_compose. by apply list_fmap_ext.
  - rewrite <- list_fmap_compose. exact Husers.
  - intros u. rewrite <- Hlock. split.
    + rewrite Hlock. intros ([k n] & -> & Hin)%list_elem_of_fmap. cbn.
      rewrite <- Hlock. apply elem_get.
      * by rewrite Hlock, Hkeys.
      * rewrite Hlock.
        by apply (list_elem_of_fmap_2 (λ e, (e.1, mkUser e.1 e.2)) _ (k, n)).
    + intros Hin%get_Some_elem. rewrite Hlock in Hin.
      apply list_elem_of_fmap in Hin as ([k n] & [= Hk Hu] & Hin).
      apply list_elem_of_fmap. by exists (k, n).
Qed.



(** X15.  After any sequence of operations [getAllGroups] lists no id twice,
    and it lists a group exactly when [getGroup] returns that group for its
    own id. *)
Theorem getAllGroups_getGroup (ops : list Op) :
  let s := Ordered.run ops Ordered.newService in
  NoDup (id <$> Ordered.getAllGroups s)
  ∧ ∀ group, group ∈ Ordered.getAllGroups s
             ↔ Ordered.getGroup (id group) s = Some group.
Proof.
  cbn zeta. set (s := Ordered.run ops Ordered.newService).
  destruct (distinctKeys_run ops _ distinctKeys_newService) as [_ Hgroups].
  fold s in Hgroups. unfold Ordered.getAllGroups. split.
  - rewrite ids_are_keys; [done|].
    intros k group Hin. by apply (reachable_groups_keyed ops).
  - intros group. split.
    + intros ([k group'] & -> & Hin)%list_elem_of_fmap. cbn [snd].
      destruct (reachable_groups_keyed ops k group' Hin) as [-> Hget]. done.
    + intros Hin%get_Some_elem.
      by apply (list_elem_of_fmap_2 snd _ (id group, group)).
Qed.

(** X16.  [removeUser], in whatever state it is called, takes no group out
    of the [getAllGroups] listing: the ids, names and creators listed are
    the same, in the same order, as before. *)
Theorem getAllGroups_removeUser (clientId : string) (s : Ordered.Service) :
  (λ group, (id group, name group, createdBy group))
    <$> Ordered.getAllGroups (Ordered.removeUser clientId s)
  = (λ group, (id group, name group, createdBy group))
      <$> Ordered.getAllGroups s.
Proof.
  unfold Ordered.getAllGroups, Ordered.removeUser. fields.
  generalize (Ordered.groupIdsOf s clientId) as l.
  generalize (Ordered.groups s) as gs.
  intros gs l. revert gs. induction l as [|g l IH]; intros gs; [done|].
  cbn [foldl]. rewrite IH. unfold Ordered.dropMember.
  destruct (JsMap.get g gs) as [group|] eqn:Hg; [|done].
  by apply (values_set_same _ g group).
Qed.

(** X17.  [createGroup] under a free id puts the new group at the end of the
    [getAllGroups] listing; under a stored id the listing is unchanged. *)
Theorem getAllGroups_createGroup (groupId groupName creator : string)
    (s : Ordered.Service) :
  let s' :=
    Ordered.after s (Ordered.createGroup groupId groupName creator s) in
  match Ordered.getGroup groupId s with
  | None =>
      Ordered.getAllGroups s'
      = Ordered.getAllGroups s
        ++ [mkChatGroup groupId groupName creator [creator]]
  | Some _ => Ordered.getAllGroups s' = Ordered.getAllGroups s
  end.
Proof.
  cbn zeta. unfold Ordered.getGroup, Ordered.getAllGroups, Ordered.createGroup.
  destruct (JsMap.get groupId (Ordered.groups s)) eqn:Hget; [done|].
  cbn [Ordered.after Ordered.groups]. rewrite set_absent by done.
  unfold JsMap.values. by rewrite fmap_app.
Qed.

(** ** The other handlers of the gateway *)

Section GatewayFacts.

Implicit Types (s : Ordered.Service) (g c n : string).

Lemma get_set {V : Type} c (v : V) (m : list (string * V)) :
  JsMap.get c (JsMap.set c v m) = Some v.
Proof. by rewrite <- content_get, content_set, lookup_insert_eq. Qed.

Lemma get_delete {V : Type} c (m : list (string * V)) :
  JsMap.get c (JsMap.delete c m) = None.
Proof. by rewrite <- content_get, content_delete, lookup_delete_eq. Qed.

Lemma value_of_set {V : Type} c (v : V) (m : list (string * V)) :
  v ∈ JsMap.values (JsMap.set c v m).
Proof.
  apply (list_elem_of_fmap_2 snd _ (c, v)), get_Some_elem, get_set.
Qed.

(** Every handler changes the registry as one service call does, or not at
    all. *)
Lemma handle_is_step c (r : Gateway.Request) s :
  (Gateway.handle c r s).2 = s
  ∨ ∃ op, (Gateway.handle c r s).2 = Ordered.step s op.
Proof.
  destruct r as [|data|n|g n|g|g| | |]; cbn [Gateway.handle];
    try (by left).
  - right. by exists (RemoveUser c).
  - right. by exists (AddUser c n).
  - right. exists (CreateGroup g n c). unfold Gateway.handleCreateGroup.
    cbn [Ordered.step]. by destruct (Ordered.createGroup g n c s) as [[? ?]|].
  - right. exists (JoinGroup g c). unfold Gateway.handleJoinGroup.
    cbn [Ordered.step]. by destruct (Ordered.joinGroup g c s) as [[? ?]|].
  - right. by exists (LeaveGroup g c).
Qed.

Lemma run_app ops1 ops2 s :
  Ordered.run (ops1 ++ ops2) s = Ordered.run ops2 (Ordered.run ops1 s).
Proof. apply foldl_app. Qed.

Lemma serve_is_run (requests : list (string * Gateway.Request)) s :
  ∃ ops, Gateway.serve requests s = Ordered.run ops s.
Proof.
  induction requests as [|[c r] requests IH] using rev_ind; [by exists []|].
  destruct IH as [ops IH]. unfold Gateway.serve in *. rewrite foldl_app.
  cbn [foldl fst snd]. rewrite IH.
  destruct (handle_is_step c r (Ordered.run ops s)) as [->|[op ->]].
  - by exists ops.
  - exists (ops ++ [op]). by rewrite run_app.
Qed.

End GatewayFacts.

(** X18.  [handleJoin] answers nobody in particular: it broadcasts the new
    name and then the list of all names, which contains the new name, and
    afterwards the connection is registered under that name. *)
Theorem handleJoin_announces (username client_id : string)
    (s : Ordered.Service) :
  let out := Gateway.handleJoin username client_id s in
  ∃ names,
    out.1 = [Emit Broadcast "userJoined" (Text username);
             Emit Broadcast "users" (Names names)]
    ∧ username ∈ names
    ∧ names = Ordered.getAllUsers out.2
    ∧ Ordered.getUser client_id out.2 = Some username
    ∧ filter toRequester out.1 = [].
Proof.
  cbn zeta. eexists. split; [reflexivity|]. cbn [snd].
  unfold Ordered.getAllUsers, Ordered.getUser, Ordered.addUser. fields.
  split; [apply value_of_set|]. split; [done|]. split; [apply get_set|done].
Qed.

(** X19.  [handleDisconnect] always broadcasts the list of the names that
    remain and leaves the connection without an Identity.  For a connection
    that had no name the list is the one from before the call and nothing
    else is sent; [userLeft] is broadcast only for a name that is not the
    empty string. *)
Theorem handleDisconnect_outcomes (client_id : string) (s : Ordered.Service) :
  let out := Gateway.handleDisconnect client_id s in
  Ordered.getUser client_id out.2 = None
  ∧ Ordered.getUserObject client_id out.2 = None
  ∧ match Ordered.getUser client_id s with
    | None =>
        out.1 = [Emit Broadcast "users" (Names (Ordered.getAllUsers s))]
    | Some "" =>
        out.1 = [Emit Broadcast "users" (Names (Ordered.getAllUsers out.2))]
    | Some n =>
        out.1 = [Emit Broadcast "users" (Names (Ordered.getAllUsers out.2));
                 Emit Broadcast "userLeft" (Text n)]
    end.
Proof.
  cbn zeta. unfold Gateway.handleDisconnect. cbn [fst snd].
  unfold Ordered.getUser, Ordered.getUserObject, Ordered.getAllUsers,
    Ordered.removeUser. fields.
  split; [apply get_delete|]. split; [apply get_delete|].
  destruct (JsMap.get client_id (Ordered.users s)) as [n|] eqn:Hget.
  - destruct (decide (n = "")) as [->|Hne]; [done|].
    destruct n as [|a n]; [done|]. done.
  - by rewrite delete_absent.
Qed.

(** X20.  [handleCreateGroup] never makes the caller's socket enter the
    group's room.  Under a stored id it only answers the caller with the
    error and changes nothing; under a free id it broadcasts the new group,
    answers the caller with the same group, and the group is then stored
    and listed. *)
Theorem handleCreateGroup_outcomes (groupId name client_id : string)
    (s : Ordered.Service) :
  let out := Gateway.handleCreateGroup groupId name client_id s in
  filter isSocketJoin out.1 = []
  ∧ match Ordered.getGroup groupId s with
    | Some _ =>
        out = ([Emit RequesterOnly "error"
                  (Failure ("Group with ID " +:+ groupId +:+ " already exists"))],
               s)
    | None =>
        let group := mkChatGroup groupId name client_id [client_id] in
        out.1 = [Emit Broadcast "groupCreated" (GroupBody group);
                 Emit RequesterOnly "groupCreated" (GroupBody group)]
        ∧ Ordered.getGroup groupId out.2 = Some group
        ∧ group ∈ Ordered.getAllGroups out.2
    end.
Proof.
  cbn zeta. unfold Gateway.handleCreateGroup, Ordered.createGroup,
    Ordered.getGroup, Ordered.getAllGroups.
  destruct (JsMap.get groupId (Ordered.groups s)); [done|].
  cbn [fst snd]. fields. split; [done|]. split; [done|].
  split; [apply get_set|apply value_of_set].
Qed.

(** X21.  [handleJoinGroup] for an id that is not stored only answers the
    caller with the error and changes nothing.  For a stored group the
    caller's socket enters the room, the room is told, and the caller is
    answered with the group, which is the stored one and lists the caller;
    this also happens when the caller was a member already, in which case
    the registry is not changed. *)
Theorem handleJoinGroup_outcomes (groupId client_id : string)
    (s : Ordered.Service) :
  let out := Gateway.handleJoinGroup groupId client_id s in
  match Ordered.getGroup groupId s with
  | None =>
      out = ([Emit RequesterOnly "error"
                (Failure ("Group with ID " +:+ groupId +:+ " not found"))], s)
  | Some old =>
      ∃ group,
        out.1 = [SocketJoin groupId;
                 Emit (Room groupId) "userJoinedGroup"
                   (MemberJoined group (Ordered.getUserObject client_id s));
                 Emit RequesterOnly "joinedGroup"
                   (JoinedGroup group (Ordered.getGroupMembers groupId out.2))]
        ∧ Ordered.getGroup groupId out.2 = Some group
        ∧ client_id ∈ members group
        ∧ (client_id ∈ members old → group = old ∧ out.2 = s)
  end.
Proof.
  cbn zeta. unfold Gateway.handleJoinGroup, Ordered.joinGroup, Ordered.getGroup.
  destruct (JsMap.get groupId (Ordered.groups s)) as [old|] eqn:Hget; [|done].
  destruct (decide (client_id ∈ members old)) as [Hin|Hout].
  - exists old. cbn [fst snd]. by rewrite Hget.
  - eexists. cbn [fst snd]. split; [reflexivity|]. fields.
    split; [apply get_set|]. split; [|done].
    apply elem_of_app. right. by left.
Qed.

(** X22.  After [handleLeaveGroup], in whatever state it is called, the
    caller is not a member of the group if the group is still stored, the
    caller's Identity is what it was, and for an id that is not stored the
    registry is unchanged; the caller is answered with [leftGroup] in every
    case. *)
Theorem handleLeaveGroup_outcomes (groupId client_id : string)
    (s : Ordered.Service) :
  let out := Gateway.handleLeaveGroup groupId client_id s in
  last out.1 = Some (Emit RequesterOnly "leftGroup" (GroupRef groupId))
  ∧ (∀ group, Ordered.getGroup groupId out.2 = Some group →
              client_id ∉ members group)
  ∧ Ordered.getUserObject client_id out.2
    = Ordered.getUserObject client_id s
  ∧ (Ordered.getGroup groupId s = None → out.2 = s).
Proof.
  cbn zeta. unfold Gateway.handleLeaveGroup. cbn [fst snd].
  split; [done|]. split; [|split].
  - intros group. rewrite unordered_getGroup, unordered_leaveGroup.
    apply leaveGroup_not_member.
  - unfold Ordered.getUserObject, Ordered.leaveGroup.
    by destruct (JsMap.get groupId (Ordered.groups s)).
  - unfold Ordered.getGroup, Ordered.leaveGroup. by intros ->.
Qed.

(** X23.  Whatever requests the clients have sent, the groups that
    [handleGetUserGroups] answers a caller with all list the caller as a
    member, and there is one for each group id in the caller's array. *)
Theorem handleGetUserGroups_after_requests
    (requests : list (string * Gateway.Request)) (client_id : string) :
  let s := Gateway.serve requests Ordered.newService in
  ∃ answer,
    (Gateway.handleGetUserGroups client_id s).1
    = [Emit RequesterOnly "userGroups" (GroupList answer)]
    ∧ (∀ group, group ∈ answer → client_id ∈ members group)
    ∧ length answer = length (Ordered.groupIdsOf s client_id).
Proof.
  cbn zeta. destruct (serve_is_run requests Ordered.newService) as [ops ->].
  set (s := Ordered.run ops Ordered.newService).
  eexists. split; [reflexivity|].
  assert (indexSound (unordered s)) as Hsound.
  { unfold s. rewrite unordered_run. apply indexSound_run, indexSound_newService. }
  rewrite unordered_getUserGroups, unordered_groupIdsOf.
  unfold getUserGroups. split.
  - intros group (g & Hidx & Hg)%list_elem_of_omap.
    destruct (Hsound _ _ Hidx) as (group' & Hg' & Hin). congruence.
  - generalize (groupIdsOf (unordered s) client_id) (Hsound client_id).
    intros l Hl. induction l as [|g l IH]; [done|].
    destruct (Hl g) as (group & Hg & _); [by left|].
    cbn [omap list_omap]. rewrite Hg. cbn. f_equal.
    apply IH. intros g' Hg'. apply Hl. by right.
Qed.

(** X24.  Whatever requests the clients have sent, the answer of
    [handleGetUsers] lists no connection twice and the answer of
    [handleGetGroups] lists no group id twice. *)
Theorem listings_after_requests
    (requests : list (string * Gateway.Request)) :
  let s := Gateway.serve requests Ordered.newService in
  ∃ userList groupList,
    (Gateway.handleGetUsers s).1
    = [Emit RequesterOnly "allUsers" (UserList userList)]
    ∧ (Gateway.handleGetGroups s).1
      = [Emit RequesterOnly "allGroups" (GroupList groupList)]
    ∧ NoDup (clientId <$> userList)
    ∧ NoDup (id <$> groupList).
Proof.
  cbn zeta. destruct (serve_is_run requests Ordered.newService) as [ops ->].
  set (s := Ordered.run ops Ordered.newService).
  eexists _, _. split; [reflexivity|]. split; [reflexivity|].
  destruct (distinctKeys_run ops _ distinctKeys_newService) as [Husers Hgroups].
  fold s in Husers, Hgroups.
  unfold Ordered.getAllUserObjects, Ordered.getAllGroups. split.
  - assert (lockstep s) as Hlock by by apply lockstep_run.
    destruct (values_lift (λ k n, mkUser k n) (Ordered.users s)) as [_ Hvalues].
    unfold lockstep in Hlock. rewrite Hlock, Hvalues.
    by rewrite <- list_fmap_compose.
  - rewrite ids_are_keys; [done|].
    intros k group Hin. by apply (reachable_groups_keyed ops).
Qed.

(** ** AdvancedGateway *)

Section Countdown.


End Countdown.

